(** * SmartSales core: the lead-qualification pipeline of [core.py]

    A shallow embedding of the stores ([CRMTool], [MemoryBank]), the
    enrichment tool, the scoring agent, the orchestration agent with its
    worker threads, the follow-up scheduler and the evaluation utility,
    followed by the properties proved about them. *)

From Stdlib Require Import ZArith QArith Qcanon String Ascii.
From stdpp Require Import gmap strings list fin_maps.

Set Warnings "-register-all".
Close Scope Q_scope.
Close Scope Qc_scope.
Open Scope string_scope.
Open Scope list_scope.
Open Scope Z_scope.

(** ** Python values

    [Dict[str, Any]]: the values a lead, a CRM record or a memory record
    holds.  Dictionaries are keyed by strings, as every dictionary literal
    of the module is.  A float is carried as the rational it denotes
    (timestamps, the quotients of [evaluate_predictions]); NaN and the
    infinities are not represented. *)

Inductive pyval :=
  | VNone
  | VBool (b : bool)
  | VInt (n : Z)
  | VFloat (q : Q)
  | VStr (s : string)
  | VList (l : list pyval)
  | VDict (d : gmap string pyval).

Abbreviation dict := (gmap string pyval).

(** The exceptions the module can raise. *)
Inductive exn := KeyError | TypeError | AttributeError | ValueError.

Inductive result (A : Type) :=
  | Ok (a : A)
  | Raise (e : exn).
Arguments Ok {A} a.
Arguments Raise {A} e.

Global Instance exn_eq_dec : EqDecision exn.
Proof. solve_decision. Defined.

Global Instance result_eq_dec `{EqDecision A} : EqDecision (result A).
Proof. solve_decision. Defined.

(** Sequencing: the first exception raised ends the call. *)
Definition bind {A B} (r : result A) (k : A → result B) : result B :=
  match r with
  | Ok a => k a
  | Raise e => Raise e
  end.

Notation "'let*' x ':=' r 'in' k" := (bind r (λ x, k))
  (at level 10, x name, r at level 100, k at level 200,
   format "'let*'  x  :=  r  'in'  '/' k").

(** [d.get(k, dflt)] *)
Definition dict_get (d : dict) (k : string) (dflt : pyval) : pyval :=
  default dflt (d !! k).

(** [d[k]] *)
Definition dict_item (d : dict) (k : string) : result pyval :=
  match d !! k with
  | Some v => Ok v
  | None => Raise KeyError
  end.

(** Keys of the two stores.  Python hashes [None], numbers and strings;
    numbers are one key when they are equal as numbers ([1 == True == 1.0]);
    lists and dictionaries are unhashable. *)
Inductive pykey :=
  | KNone
  | KNum (q : Qc)
  | KStr (s : string).

Global Instance pykey_eq_dec : EqDecision pykey.
Proof. solve_decision. Defined.

Global Instance pykey_countable : Countable pykey.
Proof.
  refine (inj_countable'
    (λ k, match k with
          | KNone => inl ()
          | KNum q => inr (inl q)
          | KStr s => inr (inr s)
          end)
    (λ x, match x with
          | inl _ => KNone
          | inr (inl q) => KNum q
          | inr (inr s) => KStr s
          end) _).
  by intros [].
Defined.

Definition to_key (v : pyval) : result pykey :=
  match v with
  | VNone => Ok KNone
  | VBool b => Ok (KNum (Q2Qc (inject_Z (Z.b2z b))))
  | VInt n => Ok (KNum (Q2Qc (inject_Z n)))
  | VFloat q => Ok (KNum (Q2Qc q))
  | VStr s => Ok (KStr s)
  | VList _ | VDict _ => Raise TypeError
  end.

(** [lead['id']] used as a key of a store. *)
Definition lead_key (lead : dict) : result pykey :=
  let* id := dict_item lead "id" in to_key id.

(** ** Strings *)

(** [needle in hay] on two strings. *)
Fixpoint str_contains (needle hay : string) : bool :=
  if String.prefix needle hay then true
  else match hay with
       | EmptyString => false
       | String _ rest => str_contains needle rest
       end.

(** [c.lower()] on the ASCII range; other bytes are left as they are. *)
Definition ascii_lower (c : ascii) : ascii :=
  let n := N_of_ascii c in
  if ((65 <=? n) && (n <=? 90))%N then ascii_of_N (n + 32) else c.

Fixpoint str_lower (s : string) : string :=
  match s with
  | EmptyString => EmptyString
  | String c rest => String (ascii_lower c) (str_lower rest)
  end.

(** [v.lower()]: only a string has the method. *)
Definition py_lower (v : pyval) : result string :=
  match v with
  | VStr s => Ok (str_lower s)
  | _ => Raise AttributeError
  end.

(** [v == s] for a string literal [s]. *)
Definition py_eq_str (v : pyval) (s : string) : bool :=
  match v with
  | VStr t => bool_decide (t = s)
  | _ => false
  end.

(** [needle in v] for a string literal [needle]: substring test on a
    string, membership in a list, key membership in a dictionary, and a
    [TypeError] on a value that is not iterable. *)
Definition py_contains (needle : string) (v : pyval) : result bool :=
  match v with
  | VStr s => Ok (str_contains needle s)
  | VList l => Ok (existsb (λ x, py_eq_str x needle) l)
  | VDict d => Ok (bool_decide (is_Some (d !! needle)))
  | VNone | VBool _ | VInt _ | VFloat _ => Raise TypeError
  end.

(** [v >= n] for an integer literal [n]: defined on numbers only. *)
Definition py_ge_int (v : pyval) (n : Z) : result bool :=
  match v with
  | VInt m => Ok (n <=? m)
  | VBool b => Ok (n <=? Z.b2z b)
  | VFloat q => Ok (Qle_bool (inject_Z n) q)
  | VNone | VStr _ | VList _ | VDict _ => Raise TypeError
  end.

(** ** The in-memory CRM *)

Module CRMTool.

(** [self.db] *)
Abbreviation t := (gmap pykey dict).

Definition init : t := ∅.

(** [self.db.get(lead_id, {})] *)
Definition get (db : t) (lead_id : pykey) : dict :=
  default ∅ (db !! lead_id).

(** [self.db[lead_id] = {**self.db.get(lead_id, {}), **payload}]:
    the later unpacking wins, and stdpp's union is left-biased. *)
Definition upsert (db : t) (lead_id : pykey) (payload : dict) : t :=
  <[lead_id := payload ∪ get db lead_id]> db.

Definition all (db : t) : t := db.

End CRMTool.

(** ** The memory bank *)

Module MemoryBank.

(** [self.mem] *)
Abbreviation t := (gmap pykey (list dict)).

Definition init : t := ∅.

(** [self.mem.get(lead_id, [])] *)
Definition read (mem : t) (lead_id : pykey) : list dict :=
  default [] (mem !! lead_id).

(** [self.mem.setdefault(lead_id, []).append(record)] *)
Definition write (mem : t) (lead_id : pykey) (record : dict) : t :=
  <[lead_id := read mem lead_id ++ [record]]> mem.

End MemoryBank.

(** ** The simulated LLM *)

Definition llm_reasoning_prompt (prompt : string) : string :=
  if str_contains "qualification" (str_lower prompt)
  then "LLM: lead looks promising due to funding and tech-stack match."
  else "LLM: default reasoning.".

(** ** QualificationAgent *)

Module QualificationAgent.

(** The two stores the agent holds references to. *)
Abbreviation stores := (CRMTool.t * MemoryBank.t)%type.

(** One rule: [if fired: score += points; reasons.append(reason)]. *)
Definition rule (fired : bool) (points : Z) (reason : string)
    (acc : Z * list pyval) : Z * list pyval :=
  if fired then (acc.1 + points, acc.2 ++ [VStr reason]) else acc.

(** [score(self, lead)], with [now] the reading of [time.time()]. *)
Definition score (lead : dict) (now : Q) (st : stores)
    : result (dict * stores) :=
  let acc := (0, []) in
  let* b1 := py_ge_int (dict_get lead "employee_count" (VInt 0)) 50 in
  let acc := rule b1 30 "Team size >= 50" acc in
  let* b2 := py_contains "FinTech" (dict_get lead "industry" (VStr "")) in
  let acc := rule b2 25 "Industry match: FinTech" acc in
  let* b3 := py_contains "Series A" (dict_get lead "recent_news" (VStr "")) in
  let acc := rule b3 20 "Funding signal: Series A" acc in
  let llm_text := llm_reasoning_prompt "qualification reasoning for lead" in
  let reasons := acc.2 ++ [VStr llm_text] in
  let score := Z.min 100 acc.1 in
  let res : dict := {[ "score" := VInt score; "reasons" := VList reasons ]} in
  let* id := dict_item lead "id" in
  let* key := to_key id in
  let crm := CRMTool.upsert st.1 key
    {[ "score" := VInt score;
       "status" := VStr (if 50 <? score then "qualified" else "nurture") ]} in
  let mem := MemoryBank.write st.2 key
    {[ "qualification" := VDict res; "ts" := VFloat now ]} in
  Ok (res, (crm, mem)).

End QualificationAgent.

(** ** The simulated enrichment tool *)

Module CompanyEnricherTool.

(** [run(self, lead)]: the dictionary literal is evaluated entry by
    entry, then the log line reads [lead['id']]. *)
Definition run (lead : dict) : result dict :=
  let website := dict_get lead "website" (VStr "") in
  let* name := py_lower (dict_get lead "company_name" (VStr "")) in
  let industry := if str_contains "fin" name then "FinTech" else "SaaS" in
  let* series_a := py_contains "Series A" (dict_get lead "notes" (VStr "")) in
  let* employee_count :=
    (if series_a then Ok 75
     else let* scale_up := py_contains "Scale-up" (dict_get lead "notes" (VStr "")) in
          Ok (if scale_up then 120 else 12)) in
  let* data := py_contains "Data" (dict_get lead "company_name" (VStr "")) in
  let tech_stack :=
    if data then [VStr "Python"; VStr "Postgres"] else [VStr "Node.js"] in
  let recent_news := dict_get lead "notes" (VStr "") in
  let enriched : dict :=
    {[ "website" := website;
       "industry" := VStr industry;
       "employee_count" := VInt employee_count;
       "tech_stack" := VList tech_stack;
       "recent_news" := recent_news ]} in
  let* _ := dict_item lead "id" in
  Ok enriched.

End CompanyEnricherTool.

(** ** OrchestrationAgent

    [handle_batch] starts one thread per lead, joins them all and drains
    the queue.  The threads interleave, so the method is a step relation
    on the state of the main thread, the worker threads, the memory bank
    and the queue.  The enricher is the object handed to the constructor. *)

Module OrchestrationAgent.

(** Where a worker thread stands in [worker(lead)]. *)
Inductive worker_pc :=
  | WEnrich                   (* before [self.enricher.run(lead)] *)
  | WWrite (enriched : dict)  (* before [self.memory.write(...)] *)
  | WPut (enriched : dict)    (* before [q.put(combined)] *)
  | WDone                     (* returned *)
  | WRaised (e : exn).        (* ended by an exception *)

Record thread := Thread { th_lead : dict; th_pc : worker_pc }.

(** Where the main thread stands in [handle_batch]. *)
Inductive main_pc :=
  | MStart (todo : list dict)       (* first loop: leads still to start *)
  | MJoin (k : nat)                 (* second loop: next thread to join *)
  | MDrain (results : list dict)    (* the [while not q.empty()] loop *)
  | MReturn (results : list dict).  (* [return results] *)

Record state := State {
  threads : list thread;
  memory : MemoryBank.t;
  queue : list dict;
  main : main_pc
}.

Definition init (leads : list dict) (mem : MemoryBank.t) : state :=
  State [] mem [] (MStart leads).

(** A thread object is no longer alive. *)
Definition finished (pc : worker_pc) : bool :=
  match pc with
  | WDone | WRaised _ => true
  | _ => false
  end.

(** One statement of [worker]; [now] is the reading of [time.time()].
    A thread that has ended takes no step. *)
Definition worker_step (enricher : dict → result dict) (now : Q)
    (lead : dict) (pc : worker_pc) (mem : MemoryBank.t) (q : list dict)
    : option (worker_pc * MemoryBank.t * list dict) :=
  match pc with
  | WEnrich =>
      match enricher lead with
      | Ok enriched => Some (WWrite enriched, mem, q)
      | Raise e => Some (WRaised e, mem, q)
      end
  | WWrite enriched =>
      match lead_key lead with
      | Ok key =>
          let record : dict :=
            {[ "enriched" := VDict enriched; "ts" := VFloat now ]} in
          Some (WPut enriched, MemoryBank.write mem key record, q)
      | Raise e => Some (WRaised e, mem, q)
      end
  | WPut enriched => Some (WDone, mem, q ++ [enriched ∪ lead])
  | WDone | WRaised _ => None
  end.

Inductive step (enricher : dict → result dict) : state → state → Prop :=
  | step_start ths mem q lead todo :
      step enricher (State ths mem q (MStart (lead :: todo)))
                    (State (ths ++ [Thread lead WEnrich]) mem q (MStart todo))
  | step_started ths mem q :
      step enricher (State ths mem q (MStart [])) (State ths mem q (MJoin 0))
  | step_join ths mem q k t :
      ths !! k = Some t →
      finished (th_pc t) = true →
      step enricher (State ths mem q (MJoin k)) (State ths mem q (MJoin (S k)))
  | step_joined ths mem q k :
      ths !! k = None →
      step enricher (State ths mem q (MJoin k)) (State ths mem q (MDrain []))
  | step_drain ths mem x q results :
      step enricher (State ths mem (x :: q) (MDrain results))
                    (State ths mem q (MDrain (results ++ [x])))
  | step_return ths mem results :
      step enricher (State ths mem [] (MDrain results))
                    (State ths mem [] (MReturn results))
  | step_worker ths mem q m k t now pc' mem' q' :
      ths !! k = Some t →
      worker_step enricher now (th_lead t) (th_pc t) mem q
        = Some (pc', mem', q') →
      step enricher (State ths mem q m)
                    (State (<[k := Thread (th_lead t) pc']> ths) mem' q' m).

End OrchestrationAgent.

(** ** FollowUpScheduler

    [schedule] starts a daemon thread that sleeps, then writes to the CRM
    and to the memory bank.  The class has no other method.  The waiter
    threads run beside the caller, so the scheduler too is a step
    relation. *)

Module FollowUpScheduler.

(** Where a waiter thread stands in [waiter()]. *)
Inductive waiter_pc :=
  | FSleep              (* started, up to the return of [time.sleep] *)
  | FWrite              (* after [self.crm.upsert], before [self.memory.write] *)
  | FDone               (* returned *)
  | FRaised (e : exn).  (* ended by an exception *)

Global Instance waiter_pc_eq_dec : EqDecision waiter_pc.
Proof. solve_decision. Defined.

Record waiter := Waiter {
  w_lead : pyval;
  w_delay : Z;
  w_note : string;
  w_pc : waiter_pc
}.

(** An entry of [self.scheduled]; the thread is named by its position
    among the threads started. *)
Record entry := Entry { e_thread : nat; e_note : string; e_delay : Z }.

Record state := State {
  crm : CRMTool.t;
  memory : MemoryBank.t;
  scheduled : gmap pykey entry;
  waiters : list waiter
}.

Definition init (db : CRMTool.t) (mem : MemoryBank.t) : state :=
  State db mem ∅ [].

(** [schedule(self, lead_id, delay_seconds, note)]: the thread is started
    before [self.scheduled[lead_id]] is assigned. *)
Definition schedule (st : state) (lead_id : pyval) (delay_seconds : Z)
    (note : string) : result bool * state :=
  let t := length (waiters st) in
  let ws := waiters st ++ [Waiter lead_id delay_seconds note FSleep] in
  match to_key lead_id with
  | Ok key =>
      (Ok true,
       State (crm st) (memory st)
             (<[key := Entry t note delay_seconds]> (scheduled st)) ws)
  | Raise e => (Raise e, State (crm st) (memory st) (scheduled st) ws)
  end.

(** One step of a waiter; [now] is the reading of [time.time()].
    [time.sleep] raises [ValueError] on a negative delay. *)
Definition waiter_step (now : Q) (w : waiter) (db : CRMTool.t)
    (mem : MemoryBank.t) : option (waiter_pc * CRMTool.t * MemoryBank.t) :=
  match w_pc w with
  | FSleep =>
      if w_delay w <? 0 then Some (FRaised ValueError, db, mem)
      else match to_key (w_lead w) with
           | Ok key =>
               Some (FWrite,
                     CRMTool.upsert db key {[ "followup_due" := VBool true ]},
                     mem)
           | Raise e => Some (FRaised e, db, mem)
           end
  | FWrite =>
      match to_key (w_lead w) with
      | Ok key =>
          let record : dict :=
            {[ "followup" := VStr (w_note w); "ts" := VFloat now ]} in
          Some (FDone, db, MemoryBank.write mem key record)
      | Raise e => Some (FRaised e, db, mem)
      end
  | FDone | FRaised _ => None
  end.

Definition set_pc (w : waiter) (pc : waiter_pc) : waiter :=
  Waiter (w_lead w) (w_delay w) (w_note w) pc.

(** The scheduler moves by a call of its one method or by a step of one
    of its threads. *)
Inductive step : state → state → Prop :=
  | step_schedule st lead_id delay_seconds note :
      step st (schedule st lead_id delay_seconds note).2
  | step_waiter st h w now pc' db' mem' :
      waiters st !! h = Some w →
      waiter_step now w (crm st) (memory st) = Some (pc', db', mem') →
      step st (State db' mem' (scheduled st) (<[h := set_pc w pc']> (waiters st))).

End FollowUpScheduler.

(** ** Evaluation *)

Record counts := Counts { tp : Z; fp : Z; tn : Z; fn : Z }.

(** The body of the loop over [labeled.items()]. *)
Definition count_item (db : CRMTool.t) (c : counts) (item : string * string)
    : counts :=
  let rec := CRMTool.get db (KStr item.1) in
  let predicted := dict_get rec "status" (VStr "nurture") in
  let p := py_eq_str predicted "qualified" in
  let l := bool_decide (item.2 = "qualified") in
  let c := if p && l then Counts (tp c + 1) (fp c) (tn c) (fn c) else c in
  let c := if p && negb l then Counts (tp c) (fp c + 1) (tn c) (fn c) else c in
  let c := if negb p && negb l then Counts (tp c) (fp c) (tn c + 1) (fn c) else c in
  let c := if negb p && l then Counts (tp c) (fp c) (tn c) (fn c + 1) else c in
  c.

(** [a / b] on two integers; the quotient is kept exact. *)
Definition true_div (a b : Z) : Q := Qdiv (inject_Z a) (inject_Z b).

(** [evaluate_predictions(crm, labeled)] *)
Definition evaluate_predictions (db : CRMTool.t) (labeled : gmap string string)
    : dict :=
  let c := foldl (count_item db) (Counts 0 0 0 0) (map_to_list labeled) in
  let precision :=
    if 0 <? tp c + fp c then true_div (tp c) (tp c + fp c) else inject_Z 0 in
  let recall :=
    if 0 <? tp c + fn c then true_div (tp c) (tp c + fn c) else inject_Z 0 in
  {[ "precision" := VFloat precision; "recall" := VFloat recall;
     "tp" := VInt (tp c); "fp" := VInt (fp c);
     "tn" := VInt (tn c); "fn" := VInt (fn c) ]}.

(** ** Notions used by the statements *)

(** The sum of the contributions of the rules that fire. *)
Definition rule_points (b1 b2 b3 : bool) : Z :=
  (if b1 then 30 else 0) + (if b2 then 25 else 0) + (if b3 then 20 else 0).

(** The reasons of the rules that fire, in the order of the rules. *)
Definition rule_reasons (b1 b2 b3 : bool) : list pyval :=
  (if b1 then [VStr "Team size >= 50"] else [])
  ++ (if b2 then [VStr "Industry match: FinTech"] else [])
  ++ (if b3 then [VStr "Funding signal: Series A"] else []).

(** A lead as it leaves enrichment, used to exercise the statements. *)
Definition demo_lead : dict :=
  {[ "id" := VStr "L7"; "employee_count" := VInt 120;
     "industry" := VStr "FinTech"; "recent_news" := VStr "" ]}.

(** Whether the record of a labeled id reads as "qualified": it has a
    [status] and the status is that string.  A missing record or a missing
    status reads as "nurture". *)
Definition predicted_qualified (db : CRMTool.t) (lead_id : string) : bool :=
  match CRMTool.get db (KStr lead_id) !! "status" with
  | Some (VStr s) => bool_decide (s = "qualified")
  | _ => false
  end.

(** A cell of the confusion matrix: prediction [p], label [l]. *)
Definition in_cell (db : CRMTool.t) (p l : bool) (item : string * string)
    : Prop :=
  predicted_qualified db item.1 = p ∧ bool_decide (item.2 = "qualified") = l.

(** The number of labeled entries that fall in a cell. *)
Definition cell_count (db : CRMTool.t) (p l : bool)
    (items : list (string * string)) : Z :=
  Z.of_nat (length (filter (in_cell db p l) items)).

(** *** The state of a batch while it runs *)

Module BatchInvariant.
Import OrchestrationAgent.

(** The number of threads that are started and have not ended. *)
Definition in_flight (st : state) : nat :=
  length (filter (λ t, finished (th_pc t) = false) (threads st)).

(** What the worker of a lead puts on the queue, if it gets there. *)
Definition worker_output (enricher : dict → result dict) (lead : dict)
    : option dict :=
  match enricher lead, lead_key lead with
  | Ok enriched, Ok _ => Some (enriched ∪ lead)
  | _, _ => None
  end.

(** The leads of a batch, stored under a key, whose worker writes to the
    memory bank. *)
Definition writers (enricher : dict → result dict) (key : pykey)
    (leads : list dict) : list dict :=
  filter (λ lead, is_Some (worker_output enricher lead)
                  ∧ lead_key lead = Ok key) leads.

Section defs.
Variable enricher : dict → result dict.
Variable leads : list dict.
Variable mem0 : MemoryBank.t.

(** The leads the first loop has not reached. *)
Definition todo_of (m : main_pc) : list dict :=
  match m with
  | MStart todo => todo
  | _ => []
  end.

(** The items already moved from the queue to [results]. *)
Definition results_of (m : main_pc) : list dict :=
  match m with
  | MDrain results | MReturn results => results
  | _ => []
  end.

(** Thread [j] has been joined. *)
Definition joined (m : main_pc) (j : nat) : Prop :=
  match m with
  | MStart _ => False
  | MJoin k => (j < k)%nat
  | MDrain _ | MReturn _ => True
  end.

(** What a thread has computed agrees with where it stands. *)
Definition thread_ok (t : thread) : Prop :=
  match th_pc t with
  | WEnrich => True
  | WWrite enriched => enricher (th_lead t) = Ok enriched
  | WPut enriched =>
      enricher (th_lead t) = Ok enriched
      ∧ worker_output enricher (th_lead t) = Some (enriched ∪ th_lead t)
  | WDone => is_Some (worker_output enricher (th_lead t))
  | WRaised _ => worker_output enricher (th_lead t) = None
  end.

(** The item a thread has put on the queue. *)
Definition put_of (t : thread) : option dict :=
  match th_pc t with
  | WDone => worker_output enricher (th_lead t)
  | _ => None
  end.

(** The thread has appended its record to the memory bank under [key]. *)
Definition wrote (key : pykey) (t : thread) : Prop :=
  lead_key (th_lead t) = Ok key
  ∧ match th_pc t with
    | WPut _ | WDone => True
    | _ => False
    end.

Global Instance wrote_dec key t : Decision (wrote key t).
Proof. unfold wrote. destruct (th_pc t); apply _. Defined.

Record inv (st : state) : Prop := Inv {
  inv_leads : map th_lead (threads st) ++ todo_of (main st) = leads;
  inv_threads : Forall thread_ok (threads st);
  inv_queue :
    results_of (main st) ++ queue st ≡ₚ omap put_of (threads st);
  inv_joined : ∀ j t,
    joined (main st) j → threads st !! j = Some t →
    finished (th_pc t) = true;
  inv_return : ∀ results, main st = MReturn results → queue st = [];
  inv_memory : ∀ key,
    length (MemoryBank.read (memory st) key)
    = (length (MemoryBank.read mem0 key)
       + length (filter (wrote key) (threads st)))%nat
}.

(** The cases of one worker step. *)
Inductive worker_case (lead : dict) (mem : MemoryBank.t) (q : list dict)
    : worker_pc → worker_pc → MemoryBank.t → list dict → Prop :=
  | case_enriched enriched :
      enricher lead = Ok enriched →
      worker_case lead mem q WEnrich (WWrite enriched) mem q
  | case_enrich_raised e :
      enricher lead = Raise e →
      worker_case lead mem q WEnrich (WRaised e) mem q
  | case_written enriched key now :
      lead_key lead = Ok key →
      worker_case lead mem q (WWrite enriched) (WPut enriched)
        (MemoryBank.write mem key
           {[ "enriched" := VDict enriched; "ts" := VFloat now ]}) q
  | case_write_raised enriched e :
      lead_key lead = Raise e →
      worker_case lead mem q (WWrite enriched) (WRaised e) mem q
  | case_put enriched :
      worker_case lead mem q (WPut enriched) WDone mem
        (q ++ [enriched ∪ lead]).

(** The statements a worker still has to run, counted twice, so that
    the item it adds to the queue is paid for. *)
Definition weight (t : thread) : nat :=
  match th_pc t with
  | WEnrich => 4
  | WWrite _ => 3
  | WPut _ => 2
  | WDone | WRaised _ => 0
  end.

(** A bound on the steps a state can still take. *)
Definition measure (st : state) : nat :=
  (match main st with
   | MStart todo => 6 * length todo + length (threads st) + 3
   | MJoin k => (length (threads st) - k) + 2
   | MDrain _ => 1
   | MReturn _ => 0
   end
   + sum_list_with weight (threads st) + length (queue st))%nat.

(** One schedule among the possible ones: the main thread moves when
    it can, and the thread it waits for moves when it cannot.  Every
    clock reading is [now]. *)
Definition next (now : Q) (st : state) : option state :=
  match main st with
  | MStart (lead :: todo) =>
      Some (State (threads st ++ [Thread lead WEnrich])
                  (memory st) (queue st) (MStart todo))
  | MStart [] => Some (State (threads st) (memory st) (queue st) (MJoin 0))
  | MJoin k =>
      match threads st !! k with
      | None => Some (State (threads st) (memory st) (queue st) (MDrain []))
      | Some t =>
          if finished (th_pc t)
          then Some (State (threads st) (memory st) (queue st) (MJoin (S k)))
          else
            match worker_step enricher now (th_lead t) (th_pc t)
                    (memory st) (queue st) with
            | Some (pc', mem', q') =>
                Some (State (<[k := Thread (th_lead t) pc']> (threads st))
                            mem' q' (MJoin k))
            | None => None
            end
      end
  | MDrain results =>
      match queue st with
      | x :: q =>
          Some (State (threads st) (memory st) q (MDrain (results ++ [x])))
      | [] => Some (State (threads st) (memory st) [] (MReturn results))
      end
  | MReturn _ => None
  end.

(** [fuel] steps of that schedule. *)
Fixpoint run (now : Q) (fuel : nat) (st : state) : state :=
  match fuel with
  | O => st
  | S fuel =>
      match next now st with
      | Some st' => run now fuel st'
      | None => st
      end
  end.

End defs.
End BatchInvariant.

(** The lead of the scenario of the specification, and the two fallback
    leads of the demo (fields the pipeline does not read are left out of
    the second). *)
Definition acme_lead : dict :=
  {[ "id" := VStr "L1"; "company_name" := VStr "AcmePay";
     "notes" := VStr "Series A" ]}.

Definition shop_lead : dict :=
  {[ "id" := VStr "L2"; "company_name" := VStr "ShopRight";
     "website" := VStr "shopright.pk"; "notes" := VStr "" ]}.

(** A lead read from a CSV row shorter than the header: [csv.DictReader]
    fills the missing company name with [None]. *)
Definition short_row_lead : dict :=
  {[ "id" := VStr "L1"; "company_name" := VNone ]}.

(** What [CompanyEnricherTool.run] returns on [acme_lead]. *)
Definition acme_enriched : dict :=
  {[ "website" := VStr ""; "industry" := VStr "SaaS";
     "employee_count" := VInt 75; "tech_stack" := VList [VStr "Node.js"];
     "recent_news" := VStr "Series A" ]}.

(** *** The life of a follow-up *)

Module FollowUpLifecycle.
Import FollowUpScheduler.


Definition fired (st : state) (h : nat) : Prop :=
  ∃ w, waiters st !! h = Some w ∧ (w_pc w = FWrite ∨ w_pc w = FDone).






(** The state after the call the pipeline makes for a qualified lead. *)
Definition after_schedule : state :=
  (schedule (init ∅ ∅) (VStr "L1") 5 "1st follow up").2.

End FollowUpLifecycle.

(** *** The enrichment policy, read off [CompanyEnricherTool.run] *)

(** The industry given to a company name. *)
Definition industry_of (name : string) : string :=
  if str_contains "fin" (str_lower name) then "FinTech" else "SaaS".

(** The employee count given to the notes. *)
Definition headcount_of (notes : string) : Z :=
  if str_contains "Series A" notes then 75
  else if str_contains "Scale-up" notes then 120 else 12.

(** The score of a lead with that company name and those notes, once
    enriched. *)
Definition enriched_points (name notes : string) : Z :=
  rule_points
    (str_contains "Series A" notes || str_contains "Scale-up" notes)
    (str_contains "fin" (str_lower name))
    (str_contains "Series A" notes).

(** What scoring [demo_lead] returns and leaves in two empty stores, at
    clock reading 0. *)
Definition demo_result : dict :=
  {[ "score" := VInt 55;
     "reasons" := VList [VStr "Team size >= 50";
                         VStr "Industry match: FinTech";
                         VStr "LLM: lead looks promising due to funding and tech-stack match."] ]}.

Definition demo_stores : QualificationAgent.stores :=
  (CRMTool.upsert ∅ (KStr "L7")
     {[ "score" := VInt 55; "status" := VStr "qualified" ]},
   MemoryBank.write ∅ (KStr "L7")
     {[ "qualification" := VDict demo_result; "ts" := VFloat (inject_Z 0) ]}).

(** The memory records a batch can write under a key: the [enriched]
    record of a lead of the batch that has the key. *)
Definition batch_record (enricher : dict → result dict) (leads : list dict)
    (key : pykey) (r : dict) : Prop :=
  ∃ lead enriched now,
    lead ∈ leads ∧ lead_key lead = Ok key ∧ enricher lead = Ok enriched
    ∧ r = {[ "enriched" := VDict enriched; "ts" := VFloat now ]}.

(** The registry of the scheduler points at threads that exist and carry
    what it says. *)
Definition registry_ok (st : FollowUpScheduler.state) : Prop :=
  ∀ key e,
    FollowUpScheduler.scheduled st !! key = Some e →
    ∃ w, FollowUpScheduler.waiters st !! FollowUpScheduler.e_thread e = Some w
         ∧ to_key (FollowUpScheduler.w_lead w) = Ok key
         ∧ FollowUpScheduler.w_note w = FollowUpScheduler.e_note e
         ∧ FollowUpScheduler.w_delay w = FollowUpScheduler.e_delay e.

(** ** OutreachAgent *)

(** [v > n] for an integer literal [n]: defined on numbers only. *)
Definition py_gt_int (v : pyval) (n : Z) : result bool :=
  match v with
  | VInt m => Ok (n <? m)
  | VBool b => Ok (n <? Z.b2z b)
  | VFloat q => Ok (negb (Qle_bool q (inject_Z n)))
  | VNone | VStr _ | VList _ | VDict _ => Raise TypeError
  end.

Module OutreachAgent.
Section outreach.

(** What a replacement field of an f-string inserts for a value,
    [format(v, "")]; the text of a string is the string. *)
Variable fmt : pyval → string.

(** The line feed of the template. *)
Definition nl : string := String (ascii_of_nat 10) EmptyString.

Definition subject (lead : dict) : string :=
  ("Quick question about " ++ fmt (dict_get lead "company_name" VNone)
   ++ " and your " ++ fmt (dict_get lead "industry" VNone) ++ " stack")%string.

Definition body (lead : dict) : string :=
  ("Hi " ++ fmt (dict_get lead "contact_name" VNone) ++ "," ++ nl ++ nl
   ++ "I noticed "
   ++ fmt (dict_get lead "recent_news" (VStr "your recent activities"))
   ++ " at " ++ fmt (dict_get lead "company_name" VNone)
   ++ " and thought there might be a fit." ++ nl ++ nl
   ++ "Are you available for a 15-minute call next week?" ++ nl ++ nl
   ++ "Best," ++ nl ++ "Daniyal")%string.

(** [draft(self, lead)] up to the upsert: the draft, the key of the lead
    and the payload. *)
Definition draft_parts (lead : dict) : result (dict * pykey * dict) :=
  let out : dict :=
    {[ "subject" := VStr (subject lead); "body" := VStr (body lead) ]} in
  let* id := dict_item lead "id" in
  let* key := to_key id in
  Ok (out, key, {[ "outreach" := VDict out ]}).

(** [draft(self, lead)], run alone. *)
Definition draft (lead : dict) (db : CRMTool.t) : result (dict * CRMTool.t) :=
  let* parts := draft_parts lead in
  Ok (parts.1.1, CRMTool.upsert db parts.1.2 parts.2).

End outreach.
End OutreachAgent.

(** ** The pipeline

    [pipeline] runs [handle_batch], then scores the enriched leads one
    after the other on the main thread, drafting and scheduling for those
    above 50, and evaluates.  The follow-up threads it starts run beside
    the loop and write the same CRM, so the loop is a step relation too.
    [CRMTool.upsert] reads the record and then assigns it, and a thread
    may run between the two; the read and the assignment are separate
    steps here, for the main thread and for the follow-up threads. *)

Module Pipeline.

(** [score(self, lead)] up to the upsert: the result, the key of the lead
    and the payload. *)
Definition score_parts (lead : dict) : result (dict * pykey * dict) :=
  let acc := (0, []) in
  let* b1 := py_ge_int (dict_get lead "employee_count" (VInt 0)) 50 in
  let acc := QualificationAgent.rule b1 30 "Team size >= 50" acc in
  let* b2 := py_contains "FinTech" (dict_get lead "industry" (VStr "")) in
  let acc := QualificationAgent.rule b2 25 "Industry match: FinTech" acc in
  let* b3 := py_contains "Series A" (dict_get lead "recent_news" (VStr "")) in
  let acc := QualificationAgent.rule b3 20 "Funding signal: Series A" acc in
  let llm_text := llm_reasoning_prompt "qualification reasoning for lead" in
  let reasons := acc.2 ++ [VStr llm_text] in
  let score := Z.min 100 acc.1 in
  let res : dict := {[ "score" := VInt score; "reasons" := VList reasons ]} in
  let* id := dict_item lead "id" in
  let* key := to_key id in
  Ok (res, key,
      {[ "score" := VInt score;
         "status" := VStr (if 50 <? score then "qualified" else "nurture") ]}).

(** Where a follow-up thread stands in [waiter()]. *)
Inductive waiter_pc :=
  | TSleep                                (* up to the return of [time.sleep] *)
  | TUpsert (key : pykey) (old : dict)    (* in [upsert], record read *)
  | TWrite (key : pykey)                  (* before [self.memory.write] *)
  | TDone                                 (* returned *)
  | TRaised (e : exn).                    (* ended by an exception *)

Record waiter := Waiter {
  t_lead : pyval;
  t_delay : Z;
  t_note : string;
  t_pc : waiter_pc
}.

(** The objects the threads share. *)
Record shared := Shared {
  crm : CRMTool.t;
  memory : MemoryBank.t;
  scheduled : gmap pykey FollowUpScheduler.entry;
  waiters : list waiter
}.

(** Where the main thread stands after [handle_batch]. *)
Inductive main_pc :=
  | PNext (todo processed : list dict)
      (* at the head of [for e in enriched] *)
  | PScoreUpsert (e q : dict) (key : pykey) (payload old : dict)
      (todo processed : list dict)
      (* in [qual.score(e)], in [upsert], record read *)
  | PScoreWrite (e q : dict) (key : pykey) (todo processed : list dict)
      (* in [qual.score(e)], before [self.memory.write] *)
  | PScored (e q : dict) (todo processed : list dict)
      (* before [if q["score"] > 50] *)
  | PDraftUpsert (e q : dict) (key : pykey) (payload old : dict)
      (todo processed : list dict)
      (* in [out.draft(e)], in [upsert], record read *)
  | PDrafted (e q : dict) (todo processed : list dict)
      (* before [scheduler.schedule(...)] *)
  | PEvaluate (items : list (string * string)) (c : counts)
      (processed : list dict)
      (* in the loop of [evaluate_predictions] *)
  | PReturn (processed : list dict) (metrics : dict)
      (* [return]; the CRM and the memory returned are the shared ones *)
  | PRaised (e : exn).

(** The end of [evaluate_predictions], after its loop. *)
Definition metrics_of (c : counts) : dict :=
  let precision :=
    if 0 <? tp c + fp c then true_div (tp c) (tp c + fp c) else inject_Z 0 in
  let recall :=
    if 0 <? tp c + fn c then true_div (tp c) (tp c + fn c) else inject_Z 0 in
  {[ "precision" := VFloat precision; "recall" := VFloat recall;
     "tp" := VInt (tp c); "fp" := VInt (fp c);
     "tn" := VInt (tn c); "fn" := VInt (fn c) ]}.

Section pipeline.
Variable fmt : pyval → string.

(** [labeled], [None] by default. *)
Variable labeled : option (gmap string string).

(** One step of the main thread; [now] is the reading of [time.time()]. *)
Definition main_step (now : Q) (sh : shared) (pc : main_pc)
    : option (shared * main_pc) :=
  match pc with
  | PNext (e :: todo) processed =>
      match score_parts e with
      | Ok (q, key, payload) =>
          Some (sh, PScoreUpsert e q key payload (CRMTool.get (crm sh) key)
                      todo processed)
      | Raise x => Some (sh, PRaised x)
      end
  | PScoreUpsert e q key payload old todo processed =>
      Some (Shared (<[key := payload ∪ old]> (crm sh)) (memory sh)
                   (scheduled sh) (waiters sh),
            PScoreWrite e q key todo processed)
  | PScoreWrite e q key todo processed =>
      Some (Shared (crm sh)
                   (MemoryBank.write (memory sh) key
                      {[ "qualification" := VDict q; "ts" := VFloat now ]})
                   (scheduled sh) (waiters sh),
            PScored e q todo processed)
  | PScored e q todo processed =>
      match (let* s := dict_item q "score" in py_gt_int s 50) with
      | Ok true =>
          match OutreachAgent.draft_parts fmt e with
          | Ok (_, key, payload) =>
              Some (sh, PDraftUpsert e q key payload
                          (CRMTool.get (crm sh) key) todo processed)
          | Raise x => Some (sh, PRaised x)
          end
      | Ok false => Some (sh, PNext todo (processed ++ [q ∪ e]))
      | Raise x => Some (sh, PRaised x)
      end
  | PDraftUpsert e q key payload old todo processed =>
      Some (Shared (<[key := payload ∪ old]> (crm sh)) (memory sh)
                   (scheduled sh) (waiters sh),
            PDrafted e q todo processed)
  | PDrafted e q todo processed =>
      match dict_item e "id" with
      | Ok id =>
          let t := length (waiters sh) in
          let ws := waiters sh ++ [Waiter id 5 "1st follow up" TSleep] in
          match to_key id with
          | Ok key =>
              Some (Shared (crm sh) (memory sh)
                      (<[key := FollowUpScheduler.Entry t "1st follow up" 5]>
                         (scheduled sh)) ws,
                    PNext todo (processed ++ [q ∪ e]))
          | Raise x =>
              Some (Shared (crm sh) (memory sh) (scheduled sh) ws, PRaised x)
          end
      | Raise x => Some (sh, PRaised x)
      end
  | PNext [] processed =>
      match labeled with
      | Some l =>
          if decide (l = ∅) then Some (sh, PReturn processed ∅)
          else Some (sh, PEvaluate (map_to_list l) (Counts 0 0 0 0) processed)
      | None => Some (sh, PReturn processed ∅)
      end
  | PEvaluate (item :: items) c processed =>
      Some (sh, PEvaluate items (count_item (crm sh) c item) processed)
  | PEvaluate [] c processed => Some (sh, PReturn processed (metrics_of c))
  | PReturn _ _ | PRaised _ => None
  end.

(** One step of a follow-up thread. *)
Definition waiter_step (now : Q) (w : waiter) (sh : shared)
    : option (waiter_pc * CRMTool.t * MemoryBank.t) :=
  match t_pc w with
  | TSleep =>
      if t_delay w <? 0 then Some (TRaised ValueError, crm sh, memory sh)
      else match to_key (t_lead w) with
           | Ok key =>
               Some (TUpsert key (CRMTool.get (crm sh) key), crm sh, memory sh)
           | Raise e => Some (TRaised e, crm sh, memory sh)
           end
  | TUpsert key old =>
      Some (TWrite key,
            <[key := {[ "followup_due" := VBool true ]} ∪ old]> (crm sh),
            memory sh)
  | TWrite key =>
      Some (TDone, crm sh,
            MemoryBank.write (memory sh) key
              {[ "followup" := VStr (t_note w); "ts" := VFloat now ]})
  | TDone | TRaised _ => None
  end.

Inductive step : shared * main_pc → shared * main_pc → Prop :=
  | step_main now sh pc sh' pc' :
      main_step now sh pc = Some (sh', pc') →
      step (sh, pc) (sh', pc')
  | step_waiter now sh pc h w pc' db' mem' :
      waiters sh !! h = Some w →
      waiter_step now w sh = Some (pc', db', mem') →
      step (sh, pc)
           (Shared db' mem' (scheduled sh)
              (<[h := Waiter (t_lead w) (t_delay w) (t_note w) pc']> (waiters sh)),
            pc).

(** The loop, started on what [handle_batch] returned: a fresh CRM, the
    memory bank as the workers left it, no follow-up yet. *)
Definition start (mem : MemoryBank.t) (enriched : list dict)
    : shared * main_pc :=
  (Shared ∅ mem ∅ [], PNext enriched []).

(** [pipeline(leads, labeled)] with the enricher of the module: the states
    the whole function can be in once the batch is enriched. *)
Definition reaches (leads : list dict) (s : shared * main_pc) : Prop :=
  ∃ st enriched,
    rtc (OrchestrationAgent.step CompanyEnricherTool.run)
        (OrchestrationAgent.init leads ∅) st
    ∧ OrchestrationAgent.main st = OrchestrationAgent.MReturn enriched
    ∧ rtc step (start (OrchestrationAgent.memory st) enriched) s.

End pipeline.

(** *** Notions for the statements about the pipeline *)

(** A CRM record is coherent: it has a score and the status that goes
    with it, or neither. *)
Definition record_ok (r : dict) : Prop :=
  match r !! "score", r !! "status" with
  | None, None => True
  | Some (VInt s), Some (VStr t) =>
      t = if 50 <? s then "qualified" else "nurture"
  | _, _ => False
  end.

(** The record a thread has read and is about to write back. *)
Definition held_by_waiter (w : waiter) : option dict :=
  match t_pc w with
  | TUpsert _ old => Some old
  | _ => None
  end.

Definition held_by_main (pc : main_pc) : option dict :=
  match pc with
  | PScoreUpsert _ _ _ _ old _ _ | PDraftUpsert _ _ _ _ old _ _ => Some old
  | _ => None
  end.

(** An entry of [processed] is the lead merged with its score result. *)
Definition processed_of (e p : dict) : Prop :=
  ∃ q key payload, score_parts e = Ok (q, key, payload) ∧ p = q ∪ e.

(** The entry has a score above 50. *)
Definition above_50 (p : dict) : Prop :=
  ∃ s, p !! "score" = Some (VInt s) ∧ 50 < s.

Global Instance above_50_dec p : Decision (above_50 p).
Proof.
  unfold above_50. destruct (p !! "score") as [[| |s| | | |]|] eqn:Hs;
    try (right; intros (s' & Hs' & _); congruence).
  destruct (decide (50 < s)); [left; eauto|right].
  intros (s' & Hs' & ?). congruence.
Defined.

(** What the main thread holds agrees with where it stands in the loop
    over [enriched]. *)
Definition main_ok (fmt : pyval → string) (enriched : list dict)
    (pc : main_pc) : Prop :=
  match pc with
  | PNext todo processed =>
      ∃ done, enriched = done ++ todo ∧ Forall2 processed_of done processed
  | PScoreUpsert e q key payload _ todo processed =>
      ∃ done, enriched = done ++ e :: todo
              ∧ Forall2 processed_of done processed
              ∧ score_parts e = Ok (q, key, payload)
  | PScoreWrite e q key todo processed =>
      ∃ done payload, enriched = done ++ e :: todo
              ∧ Forall2 processed_of done processed
              ∧ score_parts e = Ok (q, key, payload)
  | PScored e q todo processed =>
      ∃ done key payload, enriched = done ++ e :: todo
              ∧ Forall2 processed_of done processed
              ∧ score_parts e = Ok (q, key, payload)
  | PDraftUpsert e q key payload _ todo processed =>
      ∃ done key' payload' out, enriched = done ++ e :: todo
              ∧ Forall2 processed_of done processed
              ∧ score_parts e = Ok (q, key', payload')
              ∧ OutreachAgent.draft_parts fmt e = Ok (out, key, payload)
              ∧ above_50 (q ∪ e)
  | PDrafted e q todo processed =>
      ∃ done key payload, enriched = done ++ e :: todo
              ∧ Forall2 processed_of done processed
              ∧ score_parts e = Ok (q, key, payload)
              ∧ above_50 (q ∪ e)
  | PEvaluate _ _ processed | PReturn processed _ =>
      Forall2 processed_of enriched processed
  | PRaised x => ∃ e, e ∈ enriched ∧ score_parts e = Raise x
  end.

(** The entries of [processed] so far. *)
Definition processed_so_far (pc : main_pc) : option (list dict) :=
  match pc with
  | PNext _ processed
  | PScoreUpsert _ _ _ _ _ _ processed
  | PScoreWrite _ _ _ _ processed
  | PScored _ _ _ processed
  | PDraftUpsert _ _ _ _ _ _ processed
  | PDrafted _ _ _ processed
  | PEvaluate _ _ processed
  | PReturn processed _ => Some processed
  | PRaised _ => None
  end.

Record inv (fmt : pyval → string) (enriched : list dict)
    (s : shared * main_pc) : Prop := Inv {
  inv_main : main_ok fmt enriched s.2;
  inv_count : ∀ processed,
    processed_so_far s.2 = Some processed →
    length (waiters s.1) = length (filter above_50 processed);
  inv_crm : ∀ key, record_ok (CRMTool.get (crm s.1) key);
  inv_held_main : ∀ old, held_by_main s.2 = Some old → record_ok old;
  inv_held_waiters :
    Forall (λ w, ∀ old, held_by_waiter w = Some old → record_ok old)
           (waiters s.1)
}.

End Pipeline.

(** *** A schedule of the pipeline loop *)

(** [fuel] steps of the main thread, the follow-up threads asleep. *)
Fixpoint run_main (fmt : pyval → string) (labeled : option (gmap string string))
    (now : Q) (fuel : nat) (s : Pipeline.shared * Pipeline.main_pc)
    : Pipeline.shared * Pipeline.main_pc :=
  match fuel with
  | O => s
  | S fuel =>
      match Pipeline.main_step fmt labeled now s.1 s.2 with
      | Some s' => run_main fmt labeled now fuel s'
      | None => s
      end
  end.

(** A formatting of the values that occur in the examples. *)
Definition fmt_text (v : pyval) : string :=
  match v with
  | VStr s => s
  | _ => "None"
  end.

(** A lead that scores 55, as [handle_batch] would return it. *)
Definition fin_lead : dict :=
  {[ "id" := VStr "L3"; "company_name" := VStr "FinEdge";
     "industry" := VStr "FinTech"; "employee_count" := VInt 120;
     "recent_news" := VStr "Scale-up" ]}.

(** A memory record written after the enrichment: the qualification of a
    lead or a follow-up. *)
Definition later_record (r : dict) : Prop :=
  (∃ q now, r = {[ "qualification" := VDict q; "ts" := VFloat now ]})
  ∨ (∃ note now, r = {[ "followup" := VStr note; "ts" := VFloat now ]}).



(** * Properties *)

(** ** The stores *)

Lemma get_upsert_eq (db : CRMTool.t) (id : pykey) (payload : dict) :
  CRMTool.get (CRMTool.upsert db id payload) id = payload ∪ CRMTool.get db id.
Proof. unfold CRMTool.get at 1, CRMTool.upsert. by rewrite lookup_insert_eq. Qed.

Lemma get_upsert_ne (db : CRMTool.t) (id id' : pykey) (payload : dict) :
  id ≠ id' →
  CRMTool.get (CRMTool.upsert db id payload) id' = CRMTool.get db id'.
Proof.
  intros Hne. unfold CRMTool.get, CRMTool.upsert. by rewrite lookup_insert_ne.
Qed.

Lemma read_write_eq (mem : MemoryBank.t) (id : pykey) (record : dict) :
  MemoryBank.read (MemoryBank.write mem id record) id
  = MemoryBank.read mem id ++ [record].
Proof. unfold MemoryBank.read at 1, MemoryBank.write. by rewrite lookup_insert_eq. Qed.

Lemma read_write_ne (mem : MemoryBank.t) (id id' : pykey) (record : dict) :
  id ≠ id' →
  MemoryBank.read (MemoryBank.write mem id record) id' = MemoryBank.read mem id'.
Proof.
  intros Hne. unfold MemoryBank.read, MemoryBank.write. by rewrite lookup_insert_ne.
Qed.

(** C6: [upsert] merges the payload into the record of the id, field by
    field, and creates the record when there is none.  The keys of the
    record afterwards are the keys of the payload together with the keys
    it had before, so no key is deleted; every key reads the payload's
    value when the payload has it and its old value otherwise. *)
Theorem upsert_merges (db : CRMTool.t) (id : pykey) (partial : dict) :
  is_Some (CRMTool.all (CRMTool.upsert db id partial) !! id)
  ∧ dom (CRMTool.get (CRMTool.upsert db id partial) id)
    = dom partial ∪ dom (CRMTool.get db id)
  ∧ ∀ k : string,
      CRMTool.get (CRMTool.upsert db id partial) id !! k
      = match partial !! k with
        | Some v => Some v
        | None => CRMTool.get db id !! k
        end.
Proof.
  split.
  { unfold CRMTool.all, CRMTool.upsert. by rewrite lookup_insert_eq. }
  rewrite get_upsert_eq. split.
  - apply dom_union_L.
  - intros k. rewrite lookup_union.
    destruct (partial !! k) as [v|] eqn:Hk.
    + by destruct (CRMTool.get db id !! k).
    + by destruct (CRMTool.get db id !! k).
Qed.

(** ** Scoring *)

Lemma llm_text_qualification :
  llm_reasoning_prompt "qualification reasoning for lead"
  = "LLM: lead looks promising due to funding and tech-stack match.".
Proof. reflexivity. Qed.

Lemma rule_points_bounds b1 b2 b3 : 0 ≤ rule_points b1 b2 b3 ≤ 75.
Proof. unfold rule_points. destruct b1, b2, b3; lia. Qed.

(** [score] returns exactly when the three tests and the key of the lead
    are defined, and then it is this value. *)
Lemma score_unfold lead now (st : QualificationAgent.stores) b1 b2 b3 key :
  py_ge_int (dict_get lead "employee_count" (VInt 0)) 50 = Ok b1 →
  py_contains "FinTech" (dict_get lead "industry" (VStr "")) = Ok b2 →
  py_contains "Series A" (dict_get lead "recent_news" (VStr "")) = Ok b3 →
  lead_key lead = Ok key →
  let s := Z.min 100 (rule_points b1 b2 b3) in
  let res : dict :=
    {[ "score" := VInt s;
       "reasons" := VList (rule_reasons b1 b2 b3 ++
         [VStr "LLM: lead looks promising due to funding and tech-stack match."]) ]} in
  QualificationAgent.score lead now st
  = Ok (res,
        (CRMTool.upsert st.1 key
           {[ "score" := VInt s;
              "status" := VStr (if 50 <? s then "qualified" else "nurture") ]},
         MemoryBank.write st.2 key
           {[ "qualification" := VDict res; "ts" := VFloat now ]})).
Proof.
  intros H1 H2 H3 Hkey. unfold QualificationAgent.score.
  rewrite H1, H2, H3. cbn [bind].
  unfold lead_key in Hkey.
  destruct (dict_item lead "id") as [id|e]; [|done]. cbn [bind] in *.
  rewrite Hkey. cbn [bind]. rewrite llm_text_qualification.
  unfold rule_points, rule_reasons, QualificationAgent.rule.
  destruct b1, b2, b3; reflexivity.
Qed.

Lemma score_inv lead now (st st' : QualificationAgent.stores) res :
  QualificationAgent.score lead now st = Ok (res, st') →
  ∃ b1 b2 b3 key,
    py_ge_int (dict_get lead "employee_count" (VInt 0)) 50 = Ok b1
    ∧ py_contains "FinTech" (dict_get lead "industry" (VStr "")) = Ok b2
    ∧ py_contains "Series A" (dict_get lead "recent_news" (VStr "")) = Ok b3
    ∧ lead_key lead = Ok key.
Proof.
  unfold QualificationAgent.score, lead_key. intros H.
  destruct (py_ge_int _ _) as [b1|]; [|done].
  destruct (py_contains "FinTech" _) as [b2|]; [|done].
  destruct (py_contains "Series A" _) as [b3|]; [|done].
  cbn [bind] in H.
  destruct (dict_item lead "id") as [id|]; [|done]. cbn [bind] in *.
  destruct (to_key id) as [key|]; [|done].
  by exists b1, b2, b3, key.
Qed.

(** C1: once [score] has returned for a lead, the CRM record stored under
    the lead's id holds an integer [score] and a [status], and the status
    is "qualified" exactly when the score is above 50, "nurture"
    otherwise. *)
Theorem score_status_iff lead now (st st' : QualificationAgent.stores) res :
  QualificationAgent.score lead now st = Ok (res, st') →
  ∃ key s status,
    lead_key lead = Ok key
    ∧ CRMTool.get st'.1 key !! "score" = Some (VInt s)
    ∧ res !! "score" = Some (VInt s)
    ∧ CRMTool.get st'.1 key !! "status" = Some (VStr status)
    ∧ (status = "qualified" ↔ 50 < s)
    ∧ (status = "nurture" ↔ s ≤ 50).
Proof.
  intros H. destruct (score_inv _ _ _ _ _ H) as (b1 & b2 & b3 & key & H1 & H2 & H3 & Hk).
  rewrite (score_unfold _ now st _ _ _ _ H1 H2 H3 Hk) in H.
  injection H as <- <-. cbn [fst].
  eexists key, _, _. split; [done|].
  rewrite get_upsert_eq.
  split; [by apply lookup_union_Some_l; rewrite lookup_insert_eq|].
  split; [by rewrite lookup_insert_eq|].
  split.
  { apply lookup_union_Some_l.
    by rewrite lookup_insert_ne, lookup_singleton_eq. }
  destruct (50 <? _) eqn:Hlt.
  - apply Z.ltb_lt in Hlt. split; split; try done; lia.
  - apply Z.ltb_ge in Hlt. split; split; try done; lia.
Qed.

Lemma score_status_iff_witness :
  ∃ key s status,
    lead_key demo_lead = Ok key
    ∧ CRMTool.get
        (CRMTool.upsert ∅ (KStr "L7")
           {[ "score" := VInt 55; "status" := VStr "qualified" ]}) key
        !! "score" = Some (VInt s)
    ∧ ({[ "score" := VInt 55;
          "reasons" := VList [VStr "Team size >= 50";
                              VStr "Industry match: FinTech";
                              VStr "LLM: lead looks promising due to funding and tech-stack match."] ]} : dict)
        !! "score" = Some (VInt s)
    ∧ CRMTool.get
        (CRMTool.upsert ∅ (KStr "L7")
           {[ "score" := VInt 55; "status" := VStr "qualified" ]}) key
        !! "status" = Some (VStr status)
    ∧ (status = "qualified" ↔ 50 < s)
    ∧ (status = "nurture" ↔ s ≤ 50).
Proof.
  apply (score_status_iff demo_lead (inject_Z 0) (∅, ∅)
           (CRMTool.upsert ∅ (KStr "L7")
              {[ "score" := VInt 55; "status" := VStr "qualified" ]},
            MemoryBank.write ∅ (KStr "L7")
              {[ "qualification" := VDict
                   {[ "score" := VInt 55;
                      "reasons" := VList [VStr "Team size >= 50";
                                          VStr "Industry match: FinTech";
                                          VStr "LLM: lead looks promising due to funding and tech-stack match."] ]};
                 "ts" := VFloat (inject_Z 0) ]})).
  reflexivity.
Defined.

(** C2: on a lead whose three tested fields have the types the tests need
    and whose id is a key, [score] returns; the score is [min(100, s)] for
    [s] the sum of 30, 25 and 20 over the rules that fire, the reasons are
    those of the fired rules in order followed by the text of the
    reasoning step, and the score lies between 0 and 100.  A rule fires
    when the employee count is an integer of at least 50, when the
    industry is a string that contains "FinTech", when the recent news is
    a string that contains "Series A"; on an absent field it does not. *)
Theorem score_result lead now (st : QualificationAgent.stores) b1 b2 b3 key :
  py_ge_int (dict_get lead "employee_count" (VInt 0)) 50 = Ok b1 →
  py_contains "FinTech" (dict_get lead "industry" (VStr "")) = Ok b2 →
  py_contains "Series A" (dict_get lead "recent_news" (VStr "")) = Ok b3 →
  lead_key lead = Ok key →
  (∃ res st' s,
     QualificationAgent.score lead now st = Ok (res, st')
     ∧ res = {[ "score" := VInt s;
                "reasons" := VList (rule_reasons b1 b2 b3 ++
                  [VStr (llm_reasoning_prompt "qualification reasoning for lead")]) ]}
     ∧ s = Z.min 100 (rule_points b1 b2 b3)
     ∧ 0 ≤ s ≤ 100)
  ∧ (b1 = match lead !! "employee_count" with
          | Some (VInt n) => bool_decide (50 ≤ n)
          | None => false
          | Some _ => b1
          end)
  ∧ (b2 = match lead !! "industry" with
          | Some (VStr s) => str_contains "FinTech" s
          | None => false
          | Some _ => b2
          end)
  ∧ (b3 = match lead !! "recent_news" with
          | Some (VStr s) => str_contains "Series A" s
          | None => false
          | Some _ => b3
          end).
Proof.
  intros H1 H2 H3 Hk. split; [|split; [|split]].
  - eexists _, _, _. split; [by apply score_unfold|].
    split; [done|]. split; [done|].
    pose proof (rule_points_bounds b1 b2 b3). lia.
  - unfold dict_get in H1.
    destruct (lead !! "employee_count") as [[]|]; cbn in H1; try done.
    + injection H1 as <-. symmetry.
      destruct (Z.leb_spec 50 n);
        [apply bool_decide_eq_true_2|apply bool_decide_eq_false_2]; lia.
    + by injection H1 as <-.
  - unfold dict_get in H2.
    destruct (lead !! "industry") as [[]|]; cbn in H2; try done.
    + by injection H2 as <-.
    + by injection H2 as <-.
  - unfold dict_get in H3.
    destruct (lead !! "recent_news") as [[]|]; cbn in H3; try done.
    + by injection H3 as <-.
    + by injection H3 as <-.
Qed.

Lemma score_result_witness :
  ∃ res st' s,
    QualificationAgent.score demo_lead (inject_Z 0) (∅, ∅) = Ok (res, st')
    ∧ res = {[ "score" := VInt s;
               "reasons" := VList (rule_reasons true true false ++
                 [VStr (llm_reasoning_prompt "qualification reasoning for lead")]) ]}
    ∧ s = Z.min 100 (rule_points true true false)
    ∧ 0 ≤ s ≤ 100.
Proof.
  destruct (score_result demo_lead (inject_Z 0) (∅, ∅) true true false
              (KStr "L7") eq_refl eq_refl eq_refl eq_refl) as [H _].
  exact H.
Defined.

(** An absent field does not fire its rule: a lead with nothing but an id
    scores 0 and gets the text of the reasoning step as its one reason. *)
Lemma score_bare_lead (id : string) now (st : QualificationAgent.stores) :
  ∃ st',
    QualificationAgent.score {[ "id" := VStr id ]} now st
    = Ok ({[ "score" := VInt 0;
             "reasons" := VList [VStr "LLM: lead looks promising due to funding and tech-stack match."] ]},
          st').
Proof.
  eexists. by apply (score_unfold _ now st false false false (KStr id)).
Qed.

(** ** Evaluation *)

Lemma predicted_qualified_get (db : CRMTool.t) (lead_id : string) :
  py_eq_str (dict_get (CRMTool.get db (KStr lead_id)) "status" (VStr "nurture"))
            "qualified"
  = predicted_qualified db lead_id.
Proof.
  unfold predicted_qualified, dict_get.
  by destruct (CRMTool.get db (KStr lead_id) !! "status") as [[]|].
Qed.

Lemma cell_count_nil db p l : cell_count db p l [] = 0.
Proof. reflexivity. Qed.

Lemma cell_count_cons db p l item items :
  cell_count db p l (item :: items)
  = (if decide (in_cell db p l item) then 1 else 0) + cell_count db p l items.
Proof.
  unfold cell_count. rewrite filter_cons.
  destruct (decide (in_cell db p l item)); cbn [length]; lia.
Qed.

Lemma cell_count_nonneg db p l items : 0 ≤ cell_count db p l items.
Proof. unfold cell_count. lia. Qed.

(** The loop adds, to each counter, the entries of its cell. *)
Lemma foldl_count_item db items c :
  foldl (count_item db) c items
  = Counts (tp c + cell_count db true true items)
           (fp c + cell_count db true false items)
           (tn c + cell_count db false false items)
           (fn c + cell_count db false true items).
Proof.
  revert c. induction items as [|item items IH]; intros c.
  - rewrite !cell_count_nil, !Z.add_0_r. by destruct c.
  - cbn [foldl]. rewrite IH, !cell_count_cons.
    unfold count_item. rewrite predicted_qualified_get.
    unfold in_cell.
    destruct (predicted_qualified db item.1), (bool_decide (item.2 = "qualified"));
      repeat case_decide; cbn; try (f_equal; lia); naive_solver.
Qed.

(** Every entry falls in one cell, so the four counts add up to the number
    of entries. *)
Lemma cell_count_total db items :
  cell_count db true true items + cell_count db true false items
  + cell_count db false false items + cell_count db false true items
  = Z.of_nat (length items).
Proof.
  induction items as [|item items IH]; [done|].
  rewrite !cell_count_cons. cbn [length]. unfold in_cell.
  destruct (predicted_qualified db item.1), (bool_decide (item.2 = "qualified"));
    repeat case_decide; try lia; naive_solver.
Qed.

Lemma evaluate_predictions_unfold db (labeled : gmap string string) :
  let items := map_to_list labeled in
  let ntp := cell_count db true true items in
  let nfp := cell_count db true false items in
  let ntn := cell_count db false false items in
  let nfn := cell_count db false true items in
  evaluate_predictions db labeled
  = {[ "precision" :=
         VFloat (if 0 <? ntp + nfp then true_div ntp (ntp + nfp) else inject_Z 0);
       "recall" :=
         VFloat (if 0 <? ntp + nfn then true_div ntp (ntp + nfn) else inject_Z 0);
       "tp" := VInt ntp; "fp" := VInt nfp; "tn" := VInt ntn; "fn" := VInt nfn ]}.
Proof.
  intros. unfold evaluate_predictions. by rewrite foldl_count_item.
Qed.



(** C10: the four counts [evaluate_predictions] returns are non-negative
    and add up to the number of entries of the labeled mapping: every
    labeled id is counted in one cell and in no other. *)
Theorem confusion_matrix_total db (labeled : gmap string string) :
  ∃ tp fp tn fn : Z,
    evaluate_predictions db labeled !! "tp" = Some (VInt tp)
    ∧ evaluate_predictions db labeled !! "fp" = Some (VInt fp)
    ∧ evaluate_predictions db labeled !! "tn" = Some (VInt tn)
    ∧ evaluate_predictions db labeled !! "fn" = Some (VInt fn)
    ∧ 0 ≤ tp ∧ 0 ≤ fp ∧ 0 ≤ tn ∧ 0 ≤ fn
    ∧ tp + fp + tn + fn = Z.of_nat (size labeled).
Proof.
  rewrite evaluate_predictions_unfold.
  eexists _, _, _, _.
  repeat (split; [by simplify_map_eq|]).
  repeat (split; [apply cell_count_nonneg|]).
  rewrite cell_count_total. by rewrite length_map_to_list.
Qed.

(** ** Orchestration *)

Lemma list_insert_split {A} (l : list A) (k : nat) (x x' : A) :
  l !! k = Some x →
  ∃ l1 l2, l = l1 ++ x :: l2 ∧ <[k := x']> l = l1 ++ x' :: l2.
Proof.
  intros Hk. exists (take k l), (drop (S k) l). split.
  - symmetry. by apply take_drop_middle.
  - apply insert_take_drop. by eapply lookup_lt_Some.
Qed.

Lemma omap_cons_eq {A B} (f : A → option B) (x : A) (l : list A) :
  omap f (x :: l)
  = match f x with
    | Some y => y :: omap f l
    | None => omap f l
    end.
Proof. reflexivity. Qed.


Lemma length_filter_middle {A} (P : A → Prop) `{!∀ x, Decision (P x)}
    (l1 : list A) (x : A) (l2 : list A) :
  length (filter P (l1 ++ x :: l2))
  = (length (filter P l1) + (if decide (P x) then 1 else 0)
     + length (filter P l2))%nat.
Proof.
  rewrite filter_app, length_app, filter_cons.
  destruct (decide (P x)); cbn [length]; lia.
Qed.

Module BatchProofs.
Import OrchestrationAgent BatchInvariant.

Section proofs.
Variable enricher : dict → result dict.
Variable leads : list dict.
Variable mem0 : MemoryBank.t.

Abbreviation inv := (inv enricher leads mem0).
Abbreviation step := (step enricher).
Abbreviation worker_case := (worker_case enricher).
Abbreviation measure := BatchInvariant.measure.
Abbreviation next := (next enricher).
Abbreviation run := (run enricher).

Lemma worker_step_case now lead pc mem q pc' mem' q' :
  worker_step enricher now lead pc mem q = Some (pc', mem', q') →
  worker_case lead mem q pc pc' mem' q'.
Proof.
  destruct pc as [|enriched|enriched| |e]; cbn; intros H; try done.
  - destruct (enricher lead) eqn:He; simplify_eq; by constructor.
  - destruct (lead_key lead) eqn:Hk; simplify_eq; by constructor.
  - simplify_eq. constructor.
Qed.

Lemma worker_step_alive now lead pc mem q r :
  worker_step enricher now lead pc mem q = Some r → finished pc = false.
Proof. by destruct pc. Qed.

Lemma worker_step_total now lead pc mem q :
  finished pc = false →
  is_Some (worker_step enricher now lead pc mem q).
Proof.
  destruct pc; cbn; intros; try done.
  - by destruct (enricher lead).
  - by destruct (lead_key lead).
Qed.

Lemma inv_init : inv (init leads mem0).
Proof.
  constructor; cbn; done.
Qed.

Lemma step_inv st st' : step st st' → inv st → inv st'.
Proof.
  intros Hstep [Hl Ht Hq Hj Hr Hm].
  destruct Hstep as [ths mem q lead todo|ths mem q|ths mem q k t Hk Hfin
    |ths mem q k Hk|ths mem x q results|ths mem results
    |ths mem q m k t now pc' mem' q' Hk Hw]; cbn in *.
  - (* a thread is started *)
    constructor; cbn.
    + rewrite map_app. cbn. by rewrite <- app_assoc.
    + apply Forall_app. split; [done|]. by repeat constructor.
    + rewrite omap_app. cbn. by rewrite app_nil_r.
    + done.
    + done.
    + intros key. rewrite filter_app, length_app, Hm.
      rewrite filter_cons_False, filter_nil; [cbn; lia|].
      unfold wrote. cbn. tauto.
  - (* all threads are started *)
    constructor; cbn; try done. intros; lia.
  - (* a thread is joined *)
    constructor; cbn; try done.
    intros j t' Hlt Hj'. destruct (decide (j = k)) as [->|].
    + by simplify_eq.
    + apply (Hj j); [lia|done].
  - (* the last thread is joined *)
    constructor; cbn; try done.
    intros j t _ Hjt. apply (Hj j); [|done].
    apply lookup_ge_None in Hk. apply lookup_lt_Some in Hjt. lia.
  - (* an item leaves the queue *)
    constructor; cbn; try done.
    by rewrite <- app_assoc.
  - (* return *)
    constructor; cbn; try done.
  - (* a worker runs a statement *)
    apply worker_step_alive in Hw as Halive.
    apply worker_step_case in Hw.
    destruct (list_insert_split ths k t (Thread (th_lead t) pc') Hk)
      as (l1 & l2 & Hths & Hins).
    assert (Hjk : ∀ j t', joined m j →
              <[k := Thread (th_lead t) pc']> ths !! j = Some t' →
              finished (th_pc t') = true).
    { intros j t' Hjm Hjt. destruct (decide (j = k)) as [->|Hne].
      - specialize (Hj k t Hjm Hk). congruence.
      - rewrite list_lookup_insert_ne in Hjt by done. by apply (Hj j). }
    rewrite Hths in Hl, Ht, Hq, Hm.
    apply Forall_app in Ht as [Ht1 Ht]. apply Forall_cons in Ht as [Htk Ht2].
    rewrite map_app in Hl. cbn [map] in Hl.
    rewrite omap_app, omap_cons_eq in Hq.
    destruct t as [lead pc]. cbn [th_lead th_pc] in *.
    constructor; cbn [threads memory queue main]; rewrite ?Hins; try done.
    + by rewrite map_app.
    + apply Forall_app. split; [done|]. apply Forall_cons. split; [|done].
      unfold thread_ok in *. cbn [th_lead th_pc] in *.
      destruct Hw; try done.
      * unfold worker_output. by rewrite H.
      * split; [done|]. unfold worker_output. by rewrite Htk, H.
      * unfold worker_output. rewrite H. by destruct (enricher lead).
      * destruct Htk as [_ ->]. done.
    + rewrite omap_app, omap_cons_eq.
      unfold put_of, thread_ok in *. cbn [th_lead th_pc] in *.
      destruct Hw; try done.
      destruct Htk as [_ ->].
      rewrite app_assoc, Hq.
      solve_Permutation.
    + by rewrite <- Hins.
    + intros results ->. specialize (Hj k _ I Hk). cbn in Hj. congruence.
    + intros key'. specialize (Hm key').
      rewrite length_filter_middle in Hm. rewrite length_filter_middle.
      unfold wrote at 2. unfold wrote at 2 in Hm.
      cbn [th_lead th_pc] in *.
      destruct Hw as [en He|e He|en key now' Hkey|en e Hkey|en].
      * repeat case_decide; try lia; tauto.
      * repeat case_decide; try lia; tauto.
      * destruct (decide (key = key')) as [->|Hne].
        -- rewrite read_write_eq, length_app. cbn [length].
           repeat case_decide; try lia; tauto.
        -- rewrite read_write_ne by done.
           repeat case_decide; try lia; exfalso; intuition congruence.
      * repeat case_decide; try lia; tauto.
      * repeat case_decide; try lia; tauto.
Qed.

Lemma reachable_inv st : rtc step (init leads mem0) st → inv st.
Proof.
  revert st. apply rtc_ind_r; [apply inv_init|].
  intros st st' _ Hstep IH. by eapply step_inv.
Qed.

(** Every step uses up some of the measure. *)
Lemma step_measure st st' : step st st' → (measure st' < measure st)%nat.
Proof.
  intros Hstep.
  destruct Hstep as [ths mem q lead todo|ths mem q|ths mem q k t Hk Hfin
    |ths mem q k Hk|ths mem x q results|ths mem results
    |ths mem q m k t now pc' mem' q' Hk Hw]; unfold BatchInvariant.measure; cbn.
  - rewrite sum_list_with_app, length_app. cbn. lia.
  - lia.
  - apply lookup_lt_Some in Hk. lia.
  - lia.
  - lia.
  - lia.
  - apply worker_step_case in Hw.
    destruct (list_insert_split ths k t (Thread (th_lead t) pc') Hk)
      as (l1 & l2 & Hths & Hins).
    rewrite Hins, Hths. rewrite !sum_list_with_app, !length_app. cbn.
    destruct t as [lead pc]. cbn in *.
    destruct Hw; cbn; rewrite ?length_app; cbn; lia.
Qed.

Lemma next_step now st st' : next now st = Some st' → step st st'.
Proof.
  destruct st as [ths mem q m]. unfold BatchInvariant.next. cbn.
  destruct m as [[|lead todo]|k|results|results]; intros H.
  - simplify_eq. constructor.
  - simplify_eq. constructor.
  - destruct (ths !! k) as [t|] eqn:Hk.
    + destruct (finished (th_pc t)) eqn:Hfin.
      * simplify_eq. by econstructor.
      * destruct (worker_step _ _ _ _ _ _) as [[[pc' mem'] q']|] eqn:Hw;
          simplify_eq. by econstructor.
    + simplify_eq. by constructor.
  - destruct q; simplify_eq; constructor.
  - done.
Qed.

Lemma next_progress now st :
  next now st = None → ∃ results, main st = MReturn results.
Proof.
  destruct st as [ths mem q m]. unfold BatchInvariant.next. cbn.
  destruct m as [[|lead todo]|k|results|results]; intros H; try done.
  - destruct (ths !! k) as [t|] eqn:Hk; [|done].
    destruct (finished (th_pc t)) eqn:Hfin; [done|].
    destruct (worker_step_total now (th_lead t) _ mem q Hfin) as [r Hr].
    rewrite Hr in H. by destruct r as [[? ?] ?].
  - by destruct q.
  - by eexists.
Qed.

Lemma run_rtc now fuel st : rtc step st (run now fuel st).
Proof.
  revert st. induction fuel as [|fuel IH]; intros st; cbn; [done|].
  destruct (next now st) as [st'|] eqn:Hn; [|done].
  eapply rtc_l; [by eapply next_step|]. apply IH.
Qed.

Lemma run_returns now fuel st :
  (measure st ≤ fuel)%nat → ∃ results, main (run now fuel st) = MReturn results.
Proof.
  revert st. induction fuel as [|fuel IH]; intros st Hm; cbn.
  - destruct (next now st) as [st'|] eqn:Hn.
    + apply next_step, step_measure in Hn. lia.
    + by apply (next_progress now).
  - destruct (next now st) as [st'|] eqn:Hn.
    + apply IH. apply next_step, step_measure in Hn. lia.
    + by apply (next_progress now).
Qed.

(** No execution is longer than the measure of its first state. *)
Lemma nsteps_measure n st st' :
  nsteps step n st st' → (n + measure st' ≤ measure st)%nat.
Proof.
  induction 1 as [|n st st1 st2 Hstep _ IH]; [lia|].
  apply step_measure in Hstep. lia.
Qed.

Lemma omap_put_of_finished ths :
  Forall (thread_ok enricher) ths →
  Forall (λ t, finished (th_pc t) = true) ths →
  omap (put_of enricher) ths
  = omap (worker_output enricher) (map th_lead ths).
Proof.
  induction ths as [|[lead pc] ths IH]; intros Ht Hfin; [done|].
  apply Forall_cons in Ht as [Htk Ht], Hfin as [Hfk Hfin].
  cbn [map]. rewrite !omap_cons_eq, IH by done.
  unfold put_of, thread_ok in *. cbn in *.
  destruct pc; try done. by rewrite Htk.
Qed.

Lemma filter_wrote_finished key ths :
  Forall (thread_ok enricher) ths →
  Forall (λ t, finished (th_pc t) = true) ths →
  length (filter (wrote key) ths)
  = length (writers enricher key (map th_lead ths)).
Proof.
  induction ths as [|[lead pc] ths IH]; intros Ht Hfin; [done|].
  apply Forall_cons in Ht as [Htk Ht], Hfin as [Hfk Hfin].
  unfold writers in *. cbn [map]. rewrite !filter_cons.
  unfold wrote at 1. unfold thread_ok in Htk. cbn in *.
  specialize (IH Ht Hfin).
  destruct pc; try done.
  - repeat case_decide; cbn [length]; rewrite ?IH; try done;
      exfalso; tauto.
  - rewrite Htk.
    assert (Hnone : ¬ is_Some (@None dict)) by (by intros [? ?]).
    repeat case_decide; cbn [length]; rewrite ?IH; try done;
      exfalso; tauto.
Qed.

(** What a state that has returned holds. *)
Lemma inv_returned st results :
  inv st → main st = MReturn results →
  map th_lead (threads st) = leads
  ∧ Forall (λ t, finished (th_pc t) = true) (threads st)
  ∧ queue st = []
  ∧ results ≡ₚ omap (worker_output enricher) leads
  ∧ ∀ key,
      length (MemoryBank.read (memory st) key)
      = (length (MemoryBank.read mem0 key)
         + length (writers enricher key leads))%nat.
Proof.
  intros [Hl Ht Hq Hj Hr Hm] Hmain. rewrite Hmain in *. cbn in *.
  rewrite app_nil_r in Hl.
  assert (Hfin : Forall (λ t, finished (th_pc t) = true) (threads st)).
  { apply Forall_lookup. intros j t. by apply Hj. }
  rewrite (Hr results eq_refl), app_nil_r in Hq.
  split; [done|]. split; [done|]. split; [by eapply Hr|].
  rewrite <- Hl. split.
  - by rewrite Hq, omap_put_of_finished.
  - intros key. by rewrite Hm, filter_wrote_finished.
Qed.

Lemma start_all ths mem q started todo :
  rtc step (State ths mem q (MStart (started ++ todo)))
           (State (ths ++ ((λ lead, Thread lead WEnrich) <$> started))
                  mem q (MStart todo)).
Proof.
  revert ths. induction started as [|lead started IH]; intros ths; cbn.
  - by rewrite app_nil_r.
  - eapply rtc_l; [constructor|].
    specialize (IH (ths ++ [Thread lead WEnrich])).
    rewrite <- app_assoc in IH. apply IH.
Qed.

Lemma in_flight_started started :
  in_flight (State ((λ lead, Thread lead WEnrich) <$> started) mem0 []
                   (MStart []))
  = length started.
Proof.
  unfold in_flight. cbn [threads].
  induction started as [|lead started IH]; [done|].
  rewrite fmap_cons, filter_cons_True by done. cbn [length]. by rewrite IH.
Qed.

Lemma returns st :
  ∃ st' results, rtc step st st' ∧ main st' = MReturn results.
Proof.
  destruct (run_returns (inject_Z 0) (measure st) st) as [results Hr]; [done|].
  eexists _, results. split; [apply run_rtc|done].
Qed.


(** C4, as amended: whatever the enricher raises, [handle_batch]
    returns under every interleaving and only after every thread has
    ended; the list returned is a permutation of the combined records
    of the leads whose worker did not raise, so a lead whose
    enrichment fails is left out; and the memory bank has gained, under
    each key, one record per lead of that key whose worker did not
    raise, so nothing is appended for a lead whose enrichment fails. *)
Theorem handle_batch_failure :
  (∀ st, rtc step (init leads mem0) st →
     ∃ st' results, rtc step st st' ∧ main st' = MReturn results)
  ∧ (∀ st results,
       rtc step (init leads mem0) st → main st = MReturn results →
       Forall (λ t, finished (th_pc t) = true) (threads st)
       ∧ results ≡ₚ omap (worker_output enricher) leads
       ∧ ∀ key,
           length (MemoryBank.read (memory st) key)
           = (length (MemoryBank.read mem0 key)
              + length (writers enricher key leads))%nat).
Proof.
  split; [intros st _; apply returns|].
  intros st results Hrtc Hmain.
  destruct (inv_returned st results (reachable_inv st Hrtc) Hmain)
    as (_ & Hfin & _ & Hperm & Hmem).
  done.
Qed.

(** C9, as amended: [handle_batch] starts one thread per lead and has
    no pool: the number of threads alive at once never exceeds the
    size of the batch, and it reaches it, once the first loop has
    started every thread and before any of them ends. *)
Theorem fan_out_per_lead :
  (∀ st, rtc step (init leads mem0) st →
     (in_flight st ≤ length leads)%nat)
  ∧ ∃ st, rtc step (init leads mem0) st
          ∧ in_flight st = length leads.
Proof.
  split.
  - intros st Hrtc. apply reachable_inv in Hrtc as [Hl _ _ _ _ _].
    unfold in_flight. etrans; [apply length_filter|].
    rewrite <- Hl, length_app, length_map. lia.
  - eexists. split.
    + pose proof (start_all [] mem0 [] leads []) as H.
      rewrite app_nil_r in H. apply H.
    + cbn [app]. apply in_flight_started.
Qed.
End proofs.
End BatchProofs.


(** The claim C4 fails on a lead whose company name is [None]: the
    enricher raises [AttributeError], the batch returns the empty list and
    the memory bank stays empty. *)
Lemma failed_lead_is_dropped :
  ¬ (∀ st results,
       rtc (OrchestrationAgent.step CompanyEnricherTool.run)
           (OrchestrationAgent.init [short_row_lead] ∅) st →
       OrchestrationAgent.main st = OrchestrationAgent.MReturn results →
       short_row_lead ∈ results
       ∧ MemoryBank.read (OrchestrationAgent.memory st) (KStr "L1") ≠ []).
Proof.
  intros H.
  destruct (H (BatchInvariant.run CompanyEnricherTool.run (inject_Z 0) 6
                 (OrchestrationAgent.init [short_row_lead] ∅)) [])
    as [Hin _].
  - apply BatchProofs.run_rtc.
  - reflexivity.
  - by apply not_elem_of_nil in Hin.
Qed.

(** C4 as amended, on a batch of a lead whose enrichment raises and the
    lead of the scenario, both under the id L1: the run returns the one
    combined record, and the memory bank holds one record for L1. *)
Lemma handle_batch_failure_witness :
  let st := BatchInvariant.run CompanyEnricherTool.run (inject_Z 0) 15
              (OrchestrationAgent.init [short_row_lead; acme_lead] ∅) in
  ∃ results,
    OrchestrationAgent.main st = OrchestrationAgent.MReturn results
    ∧ results ≡ₚ [acme_enriched ∪ acme_lead]
    ∧ length (MemoryBank.read (OrchestrationAgent.memory st) (KStr "L1"))
      = 1%nat.
Proof.
  intros st.
  destruct (BatchProofs.handle_batch_failure CompanyEnricherTool.run
              [short_row_lead; acme_lead] ∅) as [_ H].
  eexists. split; [reflexivity|].
  destruct (H st _ (BatchProofs.run_rtc _ _ _ _) eq_refl) as (_ & Hperm & Hmem).
  split; [exact Hperm|]. exact (Hmem (KStr "L1")).
Defined.

(** C9 as amended, on the two leads of the demo: both threads are alive
    once the first loop is over. *)
Lemma fan_out_per_lead_witness :
  (BatchInvariant.in_flight
     (OrchestrationAgent.State
        [OrchestrationAgent.Thread acme_lead OrchestrationAgent.WEnrich;
         OrchestrationAgent.Thread shop_lead OrchestrationAgent.WEnrich]
        ∅ [] (OrchestrationAgent.MStart []))
   ≤ 2)%nat.
Proof.
  destruct (BatchProofs.fan_out_per_lead CompanyEnricherTool.run
              [acme_lead; shop_lead] ∅) as [H _].
  apply H.
  apply (BatchProofs.start_all CompanyEnricherTool.run [] ∅ []
           [acme_lead; shop_lead] []).
Defined.

(** The claim C9 fails: no number bounds the threads alive at once. *)
Lemma fan_out_unbounded :
  ¬ ∃ cap : nat, ∀ enricher leads mem0 st,
      rtc (OrchestrationAgent.step enricher)
          (OrchestrationAgent.init leads mem0) st →
      (BatchInvariant.in_flight st ≤ cap)%nat.
Proof.
  intros [cap H].
  pose proof (BatchProofs.start_all CompanyEnricherTool.run [] ∅ []
                (replicate (S cap) acme_lead) []) as Hrtc.
  rewrite app_nil_r in Hrtc. apply H in Hrtc.
  cbn [app] in Hrtc. rewrite BatchProofs.in_flight_started in Hrtc.
  rewrite length_replicate in Hrtc. lia.
Qed.

(** ** The AcmePay scenario *)

Lemma acme_run : CompanyEnricherTool.run acme_lead = Ok acme_enriched.
Proof. reflexivity. Qed.

(** C8: on the lead L1 (AcmePay, notes "Series A") the lowered company
    name has no "fin", so the enricher returns the industry "SaaS" with
    the employee count 75 of the "Series A" bucket; [handle_batch] on that
    one lead returns the lead merged with its enrichment; scoring it gives
    50 (team size and funding signal), which is at least 20 and not above
    50, and the status stored is "nurture". *)
Theorem acmepay_scenario :
  str_contains "fin" (str_lower "AcmePay") = false
  ∧ CompanyEnricherTool.run acme_lead = Ok acme_enriched
  ∧ acme_enriched !! "industry" = Some (VStr "SaaS")
  ∧ acme_enriched !! "employee_count" = Some (VInt 75)
  ∧ (∀ st results,
       rtc (OrchestrationAgent.step CompanyEnricherTool.run)
           (OrchestrationAgent.init [acme_lead] ∅) st →
       OrchestrationAgent.main st = OrchestrationAgent.MReturn results →
       results = [acme_enriched ∪ acme_lead])
  ∧ ∀ now (stores : QualificationAgent.stores),
      ∃ res stores' s,
        QualificationAgent.score (acme_enriched ∪ acme_lead) now stores
        = Ok (res, stores')
        ∧ res !! "score" = Some (VInt s)
        ∧ res !! "reasons"
          = Some (VList [VStr "Team size >= 50";
                         VStr "Funding signal: Series A";
                         VStr "LLM: lead looks promising due to funding and tech-stack match."])
        ∧ s = 50 ∧ 20 ≤ s
        ∧ CRMTool.get stores'.1 (KStr "L1") !! "score" = Some (VInt s)
        ∧ CRMTool.get stores'.1 (KStr "L1") !! "status" = Some (VStr "nurture").
Proof.
  split; [reflexivity|]. split; [reflexivity|].
  split; [reflexivity|]. split; [reflexivity|]. split.
  - intros st results Hrtc Hmain.
    destruct (BatchProofs.inv_returned _ _ _ st results
                (BatchProofs.reachable_inv _ _ _ st Hrtc) Hmain)
      as (_ & _ & _ & Hperm & _).
    cbn in Hperm. by apply Permutation_singleton_r in Hperm.
  - intros now stores.
    eexists _, _, _. split.
    { by apply (score_unfold _ now stores true false true (KStr "L1")). }
    cbn [fst]. rewrite get_upsert_eq.
    split; [reflexivity|]. split; [reflexivity|]. split; [reflexivity|].
    split; [done|].
    split; apply lookup_union_Some_l; reflexivity.
Qed.


(** ** Follow-ups *)

Module FollowUpProofs.
Import FollowUpScheduler FollowUpLifecycle.


Lemma schedule_waiters st lead_id delay note :
  waiters (schedule st lead_id delay note).2
  = waiters st ++ [Waiter lead_id delay note FSleep]
  ∧ crm (schedule st lead_id delay note).2 = crm st
  ∧ memory (schedule st lead_id delay note).2 = memory st.
Proof. unfold schedule. by destruct (to_key lead_id). Qed.










End FollowUpProofs.



(** ** More on the stores *)

(** X1: two upserts under one id are one upsert of the merged payloads,
    the later payload winning; upserts under two ids commute, and so do
    upserts under one id whose payloads share no key. *)
Theorem upsert_compose (db : CRMTool.t) (id id' : pykey) (p1 p2 : dict) :
  CRMTool.upsert (CRMTool.upsert db id p1) id p2
  = CRMTool.upsert db id (p2 ∪ p1)
  ∧ (id ≠ id' →
     CRMTool.upsert (CRMTool.upsert db id p1) id' p2
     = CRMTool.upsert (CRMTool.upsert db id' p2) id p1)
  ∧ (dom p1 ## dom p2 →
     CRMTool.upsert (CRMTool.upsert db id p1) id p2
     = CRMTool.upsert (CRMTool.upsert db id p2) id p1).
Proof.
  assert (Hsame : ∀ q1 q2,
    CRMTool.upsert (CRMTool.upsert db id q1) id q2
    = CRMTool.upsert db id (q2 ∪ q1)).
  { intros q1 q2. unfold CRMTool.upsert at 1. rewrite get_upsert_eq.
    unfold CRMTool.upsert. by rewrite insert_insert_eq, (assoc_L (∪)). }
  split; [apply Hsame|]. split.
  - intros Hne. unfold CRMTool.upsert at 1 3.
    rewrite !get_upsert_ne by done.
    unfold CRMTool.upsert. by apply insert_insert_ne.
  - intros Hdisj. rewrite !Hsame. f_equal.
    apply map_union_comm. by apply map_disjoint_dom.
Qed.

Lemma upsert_compose_witness :
  CRMTool.upsert (CRMTool.upsert ∅ (KStr "L1") {[ "a" := VInt 1 ]})
    (KStr "L1") {[ "b" := VInt 2 ]}
  = CRMTool.upsert (CRMTool.upsert ∅ (KStr "L1") {[ "b" := VInt 2 ]})
      (KStr "L1") {[ "a" := VInt 1 ]}.
Proof.
  apply (upsert_compose ∅ (KStr "L1") (KStr "L1")).
  rewrite !dom_singleton_L. apply disjoint_singleton_l.
  rewrite elem_of_singleton. discriminate.
Defined.

(** An upsert leaves every other record as it is, and the ids of the CRM
    afterwards are the old ids and the one upserted; a record that did not
    exist reads as the empty record before and as the payload after. *)
Lemma upsert_frame (db : CRMTool.t) (id : pykey) (payload : dict) :
  dom (CRMTool.all (CRMTool.upsert db id payload)) = {[ id ]} ∪ dom db
  ∧ (∀ id', id' ≠ id →
       CRMTool.all (CRMTool.upsert db id payload) !! id' = db !! id'
       ∧ CRMTool.get (CRMTool.upsert db id payload) id' = CRMTool.get db id')
  ∧ (db !! id = None →
       CRMTool.get db id = ∅
       ∧ CRMTool.get (CRMTool.upsert db id payload) id = payload).
Proof.
  split; [apply dom_insert_L|]. split.
  - intros id' Hne. split.
    + unfold CRMTool.all, CRMTool.upsert. by rewrite lookup_insert_ne.
    + by apply get_upsert_ne.
  - intros Hnone. rewrite get_upsert_eq. unfold CRMTool.get. rewrite Hnone.
    cbn. split; [done|]. apply (right_id_L ∅ (∪)).
Qed.

(** X2: the memory bank is append-only.  A write adds its record at the
    end of the sequence of its id and changes no other sequence; after a
    run of writes under one id the sequence is the old one followed by the
    records in the order written, and it is empty for an id never
    written. *)
Theorem memory_append_only (mem : MemoryBank.t) (id : pykey)
    (records : list dict) :
  MemoryBank.read (foldl (λ m r, MemoryBank.write m id r) mem records) id
  = MemoryBank.read mem id ++ records
  ∧ (∀ id', id' ≠ id →
       MemoryBank.read (foldl (λ m r, MemoryBank.write m id r) mem records) id'
       = MemoryBank.read mem id')
  ∧ (mem !! id = None → MemoryBank.read mem id = []).
Proof.
  split; [|split].
  - revert mem. induction records as [|r records IH]; intros mem; cbn.
    + by rewrite app_nil_r.
    + by rewrite IH, read_write_eq, <- app_assoc.
  - intros id' Hne. revert mem.
    induction records as [|r records IH]; intros mem; cbn; [done|].
    by rewrite IH, read_write_ne.
  - intros Hnone. unfold MemoryBank.read. by rewrite Hnone.
Qed.

(** ** Enrichment *)

Lemma run_inv lead enriched :
  CompanyEnricherTool.run lead = Ok enriched →
  ∃ name series_a count data,
    dict_get lead "company_name" (VStr "") = VStr name
    ∧ py_contains "Series A" (dict_get lead "notes" (VStr "")) = Ok series_a
    ∧ (if series_a then count = 75
       else ∃ scale_up,
         py_contains "Scale-up" (dict_get lead "notes" (VStr "")) = Ok scale_up
         ∧ count = if scale_up then 120 else 12)
    ∧ data = str_contains "Data" name
    ∧ is_Some (lead !! "id")
    ∧ enriched
      = {[ "website" := dict_get lead "website" (VStr "");
           "industry" := VStr (industry_of name);
           "employee_count" := VInt count;
           "tech_stack" := VList (if data then [VStr "Python"; VStr "Postgres"]
                                  else [VStr "Node.js"]);
           "recent_news" := dict_get lead "notes" (VStr "") ]}.
Proof.
  unfold CompanyEnricherTool.run. intros H.
  destruct (dict_get lead "company_name" (VStr "")) as [| | | |name| |] eqn:Hn;
    try done.
  cbn [py_lower bind] in H.
  destruct (py_contains "Series A" _) as [series_a|] eqn:Hs; [|done].
  cbn [bind] in H.
  destruct series_a.
  - cbn [bind py_contains] in H.
    unfold dict_item in H. destruct (lead !! "id") eqn:Hid; [|done].
    cbn [bind] in H. injection H as <-.
    by exists name, true, 75, (str_contains "Data" name).
  - destruct (py_contains "Scale-up" _) as [scale_up|] eqn:Hu; [|done].
    cbn [bind py_contains] in H.
    unfold dict_item in H. destruct (lead !! "id") eqn:Hid; [|done].
    cbn [bind] in H. injection H as <-.
    exists name, false, (if scale_up then 120 else 12), (str_contains "Data" name).
    repeat split; try done. by exists scale_up.
Qed.

(** X3: what [run] returns has the five enrichment keys and no other, so
    merging it into the lead keeps the lead's id and every field of the
    lead that is not one of the five; the industry is "FinTech" or "SaaS",
    the employee count is 12, 75 or 120, and the recent news are the
    lead's notes. *)
Theorem run_shape lead enriched :
  CompanyEnricherTool.run lead = Ok enriched →
  dom enriched
    = {[ "website"; "industry"; "employee_count"; "tech_stack"; "recent_news" ]}
  ∧ (enriched !! "industry" = Some (VStr "FinTech")
     ∨ enriched !! "industry" = Some (VStr "SaaS"))
  ∧ (∃ n, enriched !! "employee_count" = Some (VInt n)
          ∧ (n = 12 ∨ n = 75 ∨ n = 120))
  ∧ enriched !! "recent_news" = Some (dict_get lead "notes" (VStr ""))
  ∧ enriched !! "website" = Some (dict_get lead "website" (VStr ""))
  ∧ (enriched ∪ lead) !! "id" = lead !! "id"
  ∧ is_Some (lead !! "id")
  ∧ ∀ k, k ∉ dom enriched → (enriched ∪ lead) !! k = lead !! k.
Proof.
  intros H.
  destruct (run_inv _ _ H)
    as (name & series_a & count & data & Hn & Hs & Hc & Hd & Hid & ->).
  split.
  { rewrite !dom_insert_L, dom_singleton_L. set_solver. }
  split.
  { rewrite lookup_insert_ne, lookup_insert_eq by done.
    unfold industry_of.
    destruct (str_contains "fin" (str_lower name)); [by left|by right]. }
  split.
  { exists count. split; [by simplify_map_eq|].
    destruct series_a; [by right; left|].
    destruct Hc as (scale_up & _ & ->). destruct scale_up; [by right; right|by left]. }
  split; [by simplify_map_eq|].
  split; [by simplify_map_eq|].
  split.
  { rewrite lookup_union_r; [done|]. by simplify_map_eq. }
  split; [done|].
  intros k Hk. apply lookup_union_r. by apply not_elem_of_dom.
Qed.

Lemma run_shape_witness :
  dom acme_enriched
    = {[ "website"; "industry"; "employee_count"; "tech_stack"; "recent_news" ]}
  ∧ (acme_enriched !! "industry" = Some (VStr "FinTech")
     ∨ acme_enriched !! "industry" = Some (VStr "SaaS"))
  ∧ (∃ n, acme_enriched !! "employee_count" = Some (VInt n)
          ∧ (n = 12 ∨ n = 75 ∨ n = 120))
  ∧ acme_enriched !! "recent_news" = Some (dict_get acme_lead "notes" (VStr ""))
  ∧ acme_enriched !! "website" = Some (dict_get acme_lead "website" (VStr ""))
  ∧ (acme_enriched ∪ acme_lead) !! "id" = acme_lead !! "id"
  ∧ is_Some (acme_lead !! "id")
  ∧ ∀ k, k ∉ dom acme_enriched → (acme_enriched ∪ acme_lead) !! k = acme_lead !! k.
Proof. apply (run_shape acme_lead acme_enriched). reflexivity. Defined.

(** X4: [run] returns on every lead that has an id and whose company name
    and notes are strings or absent; the industry is "FinTech" exactly
    when the lowered company name contains "fin", and the employee count
    is 75 when the notes contain "Series A", else 120 when they contain
    "Scale-up", else 12. *)
Theorem run_total lead id name notes :
  lead !! "id" = Some id →
  dict_get lead "company_name" (VStr "") = VStr name →
  dict_get lead "notes" (VStr "") = VStr notes →
  CompanyEnricherTool.run lead
  = Ok {[ "website" := dict_get lead "website" (VStr "");
          "industry" := VStr (industry_of name);
          "employee_count" := VInt (headcount_of notes);
          "tech_stack" := VList (if str_contains "Data" name
                                 then [VStr "Python"; VStr "Postgres"]
                                 else [VStr "Node.js"]);
          "recent_news" := VStr notes ]}
  ∧ (industry_of name = "FinTech" ↔ str_contains "fin" (str_lower name) = true)
  ∧ (headcount_of notes = 75 ↔ str_contains "Series A" notes = true)
  ∧ (headcount_of notes = 120 ↔
       str_contains "Series A" notes = false
       ∧ str_contains "Scale-up" notes = true).
Proof.
  intros Hid Hn Hs. split; [|split; [|split]].
  - unfold CompanyEnricherTool.run, dict_item. rewrite Hn, Hs, Hid.
    cbn [py_lower py_contains bind]. unfold industry_of, headcount_of.
    by destruct (str_contains "Series A" notes).
  - unfold industry_of. by destruct (str_contains _ _).
  - unfold headcount_of.
    destruct (str_contains "Series A" notes); [done|].
    by destruct (str_contains "Scale-up" notes).
  - unfold headcount_of.
    destruct (str_contains "Series A" notes); [by split; [|intros []]|].
    destruct (str_contains "Scale-up" notes); [done|]. by split; [|intros []].
Qed.

Lemma run_total_witness :
  CompanyEnricherTool.run shop_lead
  = Ok {[ "website" := dict_get shop_lead "website" (VStr "");
          "industry" := VStr (industry_of "ShopRight");
          "employee_count" := VInt (headcount_of "");
          "tech_stack" := VList (if str_contains "Data" "ShopRight"
                                 then [VStr "Python"; VStr "Postgres"]
                                 else [VStr "Node.js"]);
          "recent_news" := VStr "" ]}
  ∧ (industry_of "ShopRight" = "FinTech"
     ↔ str_contains "fin" (str_lower "ShopRight") = true)
  ∧ (headcount_of "" = 75 ↔ str_contains "Series A" "" = true)
  ∧ (headcount_of "" = 120 ↔
       str_contains "Series A" "" = false ∧ str_contains "Scale-up" "" = true).
Proof.
  apply (run_total shop_lead (VStr "L2") "ShopRight" ""); reflexivity.
Defined.

(** X5: the errors of [run].  A company name that is not a string (for
    one, [None]) ends the call with [AttributeError] whatever the other
    fields are; with a string for company name, notes that are [None] or a
    number end it with [TypeError]; with both in order, a lead without an
    id ends it with [KeyError]. *)
Theorem run_errors lead :
  (match dict_get lead "company_name" (VStr "") with
   | VStr _ => True
   | _ => CompanyEnricherTool.run lead = Raise AttributeError
   end)
  ∧ (∀ name,
       dict_get lead "company_name" (VStr "") = VStr name →
       match dict_get lead "notes" (VStr "") with
       | VNone | VBool _ | VInt _ | VFloat _ =>
           CompanyEnricherTool.run lead = Raise TypeError
       | VStr _ | VList _ | VDict _ =>
           lead !! "id" = None →
           CompanyEnricherTool.run lead = Raise KeyError
       end).
Proof.
  split.
  - unfold CompanyEnricherTool.run.
    by destruct (dict_get lead "company_name" (VStr "")).
  - intros name Hn. unfold CompanyEnricherTool.run, dict_item. rewrite Hn.
    cbn [py_lower bind].
    destruct (dict_get lead "notes" (VStr "")) as [| | | |notes|l|d];
      cbn [py_contains bind]; try done.
    all: intros ->.
    + by destruct (str_contains "Series A" notes).
    + by destruct (existsb _ l).
    + by destruct (bool_decide _).
Qed.

(** ** Enrichment followed by scoring *)

Lemma contains_fintech_industry name :
  str_contains "FinTech" (industry_of name)
  = str_contains "fin" (str_lower name).
Proof.
  unfold industry_of. by destruct (str_contains "fin" (str_lower name)).
Qed.

Lemma headcount_ge_50 notes :
  (50 <=? headcount_of notes)
  = str_contains "Series A" notes || str_contains "Scale-up" notes.
Proof.
  unfold headcount_of. destruct (str_contains "Series A" notes); [done|].
  by destruct (str_contains "Scale-up" notes).
Qed.

(** X6: the score of a lead enriched by [run] depends on its company name
    and notes alone, whatever industry or employee count the lead itself
    carried: 30 when the notes contain "Series A" or "Scale-up", plus 25
    when the lowered name contains "fin", plus 20 when the notes contain
    "Series A".  The lead is stored as "qualified" exactly when the name
    contains "fin" and the notes contain one of the two words. *)
Theorem enriched_score lead enriched key name notes now
    (st : QualificationAgent.stores) :
  CompanyEnricherTool.run lead = Ok enriched →
  lead_key lead = Ok key →
  dict_get lead "company_name" (VStr "") = VStr name →
  dict_get lead "notes" (VStr "") = VStr notes →
  ∃ res st',
    QualificationAgent.score (enriched ∪ lead) now st = Ok (res, st')
    ∧ res !! "score" = Some (VInt (enriched_points name notes))
    ∧ CRMTool.get st'.1 key !! "score" = Some (VInt (enriched_points name notes))
    ∧ CRMTool.get st'.1 key !! "status"
      = Some (VStr (if str_contains "fin" (str_lower name)
                       && (str_contains "Series A" notes
                           || str_contains "Scale-up" notes)
                    then "qualified" else "nurture")).
Proof.
  intros Hrun Hkey Hn Hs.
  destruct (run_shape _ _ Hrun) as (_ & _ & _ & _ & _ & Hid & _ & _).
  assert (Hid' : ∃ id, lead !! "id" = Some id).
  { unfold lead_key, dict_item in Hkey. destruct (lead !! "id"); [by eexists|done]. }
  destruct Hid' as [id Hidv].
  destruct (run_total lead id name notes Hidv Hn Hs) as (Hrun' & _).
  rewrite Hrun in Hrun'. injection Hrun' as ->.
  assert (Hk : lead_key (({[ "website" := dict_get lead "website" (VStr "");
            "industry" := VStr (industry_of name);
            "employee_count" := VInt (headcount_of notes);
            "tech_stack" := VList (if str_contains "Data" name
                                   then [VStr "Python"; VStr "Postgres"]
                                   else [VStr "Node.js"]);
            "recent_news" := VStr notes ]} : dict) ∪ lead) = Ok key).
  { unfold lead_key, dict_item in *. by rewrite Hid. }
  eexists _, _. split.
  { apply (score_unfold _ now st
             (str_contains "Series A" notes || str_contains "Scale-up" notes)
             (str_contains "fin" (str_lower name))
             (str_contains "Series A" notes) key); [| | |done].
    - unfold dict_get. erewrite lookup_union_Some_l by by simplify_map_eq.
      cbn. by rewrite headcount_ge_50.
    - unfold dict_get. erewrite lookup_union_Some_l by by simplify_map_eq.
      cbn. by rewrite contains_fintech_industry.
    - unfold dict_get. by erewrite lookup_union_Some_l by by simplify_map_eq. }
  cbn [fst]. rewrite get_upsert_eq. fold (enriched_points name notes).
  assert (Hmin : Z.min 100 (enriched_points name notes) = enriched_points name notes).
  { unfold enriched_points.
    pose proof (rule_points_bounds
      (str_contains "Series A" notes || str_contains "Scale-up" notes)
      (str_contains "fin" (str_lower name)) (str_contains "Series A" notes)).
    lia. }
  rewrite Hmin.
  split; [by simplify_map_eq|].
  split; [apply lookup_union_Some_l; by simplify_map_eq|].
  apply lookup_union_Some_l. rewrite lookup_insert_ne, lookup_singleton_eq by done.
  do 2 f_equal. unfold enriched_points, rule_points.
  destruct (str_contains "fin" (str_lower name)),
    (str_contains "Series A" notes), (str_contains "Scale-up" notes); done.
Qed.

Lemma enriched_score_witness :
  ∃ res st',
    QualificationAgent.score (acme_enriched ∪ acme_lead) (inject_Z 0) (∅, ∅)
    = Ok (res, st')
    ∧ res !! "score" = Some (VInt (enriched_points "AcmePay" "Series A"))
    ∧ CRMTool.get st'.1 (KStr "L1") !! "score"
      = Some (VInt (enriched_points "AcmePay" "Series A"))
    ∧ CRMTool.get st'.1 (KStr "L1") !! "status"
      = Some (VStr (if str_contains "fin" (str_lower "AcmePay")
                       && (str_contains "Series A" "Series A"
                           || str_contains "Scale-up" "Series A")
                    then "qualified" else "nurture")).
Proof.
  apply (enriched_score acme_lead acme_enriched (KStr "L1") "AcmePay" "Series A");
    reflexivity.
Defined.

(** ** More on scoring *)

(** X7: [score] writes under the id of the lead and nowhere else.  The
    records of the other ids, in the CRM and in the memory bank, are as
    before; the record of the lead keeps every field but [score] and
    [status]; and the memory sequence of the lead gains, at its end, the
    one record that holds the result and the clock reading. *)
Theorem score_frame lead now (st st' : QualificationAgent.stores) res :
  QualificationAgent.score lead now st = Ok (res, st') →
  ∃ key,
    lead_key lead = Ok key
    ∧ (∀ id, id ≠ key →
         st'.1 !! id = st.1 !! id
         ∧ MemoryBank.read st'.2 id = MemoryBank.read st.2 id)
    ∧ (∀ f, f ≠ "score" → f ≠ "status" →
         CRMTool.get st'.1 key !! f = CRMTool.get st.1 key !! f)
    ∧ MemoryBank.read st'.2 key
      = MemoryBank.read st.2 key
        ++ [ {[ "qualification" := VDict res; "ts" := VFloat now ]} ].
Proof.
  intros H.
  destruct (score_inv _ _ _ _ _ H) as (b1 & b2 & b3 & key & H1 & H2 & H3 & Hk).
  rewrite (score_unfold _ now st _ _ _ _ H1 H2 H3 Hk) in H.
  injection H as <- <-. cbn [fst snd]. exists key. split; [done|].
  split; [|split].
  - intros id Hne. split.
    + unfold CRMTool.upsert. by rewrite lookup_insert_ne.
    + by apply read_write_ne.
  - intros f Hf1 Hf2. rewrite get_upsert_eq.
    apply lookup_union_r. by simplify_map_eq.
  - apply read_write_eq.
Qed.

Lemma score_frame_witness :
  ∃ key,
    lead_key demo_lead = Ok key
    ∧ (∀ id, id ≠ key →
         demo_stores.1 !! id = (∅ : CRMTool.t) !! id
         ∧ MemoryBank.read demo_stores.2 id = MemoryBank.read ∅ id)
    ∧ (∀ f, f ≠ "score" → f ≠ "status" →
         CRMTool.get demo_stores.1 key !! f = CRMTool.get ∅ key !! f)
    ∧ MemoryBank.read demo_stores.2 key
      = MemoryBank.read ∅ key
        ++ [ {[ "qualification" := VDict demo_result;
                "ts" := VFloat (inject_Z 0) ]} ].
Proof.
  apply (score_frame demo_lead (inject_Z 0) (∅, ∅) demo_stores demo_result).
  reflexivity.
Defined.

(** X8: scoring a lead again changes nothing in the CRM and returns the
    same result; the memory bank gains a second record. *)
Theorem score_twice lead now now' (st st' : QualificationAgent.stores) res :
  QualificationAgent.score lead now st = Ok (res, st') →
  ∃ mem'' key,
    QualificationAgent.score lead now' st' = Ok (res, (st'.1, mem''))
    ∧ lead_key lead = Ok key
    ∧ length (MemoryBank.read mem'' key)
      = (length (MemoryBank.read st.2 key) + 2)%nat.
Proof.
  intros H.
  destruct (score_inv _ _ _ _ _ H) as (b1 & b2 & b3 & key & H1 & H2 & H3 & Hk).
  rewrite (score_unfold _ now st _ _ _ _ H1 H2 H3 Hk) in H.
  injection H as <- <-. cbn [fst snd].
  eexists _, key. split; [|split; [done|]].
  - rewrite (score_unfold _ now' _ _ _ _ _ H1 H2 H3 Hk). cbn [fst snd].
    do 3 f_equal.
    unfold CRMTool.upsert at 1. rewrite get_upsert_eq.
    unfold CRMTool.upsert. rewrite insert_insert_eq. f_equal.
    by rewrite (assoc_L (∪)), (idemp_L (∪)).
  - rewrite !read_write_eq, !length_app. cbn. lia.
Qed.

Lemma score_twice_witness :
  ∃ mem'' key,
    QualificationAgent.score demo_lead (inject_Z 1) demo_stores
    = Ok (demo_result, (demo_stores.1, mem''))
    ∧ lead_key demo_lead = Ok key
    ∧ length (MemoryBank.read mem'' key)
      = (length (MemoryBank.read (∅ : MemoryBank.t) key) + 2)%nat.
Proof.
  apply (score_twice demo_lead (inject_Z 0) (inject_Z 1) (∅, ∅) demo_stores
           demo_result).
  reflexivity.
Defined.

(** ** More on evaluation *)

Lemma filter_none {A} (P : A → Prop) `{!∀ x, Decision (P x)} (l : list A) :
  (∀ x, x ∈ l → ¬ P x) → filter P l = [].
Proof.
  induction l as [|x l IH]; intros Hno; [done|].
  rewrite filter_cons_False by (apply Hno, list_elem_of_here).
  apply IH. intros y Hy. apply Hno. by apply list_elem_of_further.
Qed.

Lemma true_div_bounds (a b : Z) :
  0 ≤ a ≤ b → 0 < b → (0 <= true_div a b)%Q ∧ (true_div a b <= 1)%Q.
Proof.
  intros Ha Hb. unfold true_div, Qdiv, Qmult, Qinv, Qle, inject_Z.
  destruct b as [|b|b]; [lia| |lia]. cbn. split; lia.
Qed.

Lemma true_div_same (a : Z) : 0 < a → (true_div a a == 1)%Q.
Proof.
  intros Ha. unfold true_div, Qdiv, Qmult, Qinv, Qeq, inject_Z.
  destruct a as [|a|a]; [lia| |lia]. cbn. lia.
Qed.

Lemma cell_count_ext db1 db2 p l (items : list (string * string)) :
  (∀ item, item ∈ items →
     predicted_qualified db1 item.1 = predicted_qualified db2 item.1) →
  cell_count db1 p l items = cell_count db2 p l items.
Proof.
  induction items as [|item items IH]; intros Hext; [done|].
  rewrite !cell_count_cons, IH.
  - unfold in_cell. rewrite (Hext item) by apply list_elem_of_here.
    by repeat case_decide.
  - intros item' Hin. apply Hext. by apply list_elem_of_further.
Qed.

(** X9: the precision and the recall [evaluate_predictions] returns lie
    between 0 and 1. *)
Theorem evaluate_ratios_bounded db (labeled : gmap string string) :
  ∃ p r : Q,
    evaluate_predictions db labeled !! "precision" = Some (VFloat p)
    ∧ evaluate_predictions db labeled !! "recall" = Some (VFloat r)
    ∧ (0 <= p)%Q ∧ (p <= 1)%Q ∧ (0 <= r)%Q ∧ (r <= 1)%Q.
Proof.
  rewrite evaluate_predictions_unfold.
  set (items := map_to_list labeled).
  pose proof (cell_count_nonneg db true true items).
  pose proof (cell_count_nonneg db true false items).
  pose proof (cell_count_nonneg db false true items).
  eexists _, _. split; [by simplify_map_eq|]. split; [by simplify_map_eq|].
  assert (Hb : ∀ a b, 0 ≤ a → 0 ≤ b →
    (0 <= (if 0 <? a + b then true_div a (a + b) else inject_Z 0))%Q
    ∧ ((if 0 <? a + b then true_div a (a + b) else inject_Z 0) <= 1)%Q).
  { intros a b Ha Hb. destruct (0 <? a + b) eqn:Hlt.
    - apply Z.ltb_lt in Hlt. apply true_div_bounds; lia.
    - done. }
  destruct (Hb (cell_count db true true items) (cell_count db true false items))
    as [? ?]; [done..|].
  destruct (Hb (cell_count db true true items) (cell_count db false true items))
    as [? ?]; done.
Qed.

(** X10: when the status of every labeled id agrees with its label and
    some label is "qualified", there are no false positives and no false
    negatives, and the precision and the recall are both 1. *)
Theorem evaluate_perfect db (labeled : gmap string string) id0 :
  (∀ id label, labeled !! id = Some label →
     predicted_qualified db id = bool_decide (label = "qualified")) →
  labeled !! id0 = Some "qualified" →
  ∃ p r : Q,
    evaluate_predictions db labeled !! "precision" = Some (VFloat p)
    ∧ evaluate_predictions db labeled !! "recall" = Some (VFloat r)
    ∧ (p == 1)%Q ∧ (r == 1)%Q
    ∧ evaluate_predictions db labeled !! "fp" = Some (VInt 0)
    ∧ evaluate_predictions db labeled !! "fn" = Some (VInt 0).
Proof.
  intros Hagree H0. rewrite evaluate_predictions_unfold.
  set (items := map_to_list labeled).
  assert (Hnone : ∀ p l, p ≠ l → cell_count db p l items = 0).
  { intros p l Hne. unfold cell_count.
    rewrite filter_none; [done|].
    intros [id label] Hin [Hp Hl]. cbn in *.
    apply elem_of_map_to_list in Hin. rewrite (Hagree _ _ Hin) in Hp. congruence. }
  assert (Hpos : 0 < cell_count db true true items).
  { unfold cell_count.
    assert (Hin : (id0, "qualified") ∈ filter (in_cell db true true) items).
    { apply list_elem_of_filter. split.
      - split; cbn; [|done]. by rewrite (Hagree _ _ H0).
      - by apply elem_of_map_to_list. }
    destruct (filter (in_cell db true true) items); [|cbn; lia].
    by apply not_elem_of_nil in Hin. }
  rewrite !(Hnone true false), !(Hnone false true) by done.
  rewrite !Z.add_0_r.
  replace (0 <? cell_count db true true items) with true
    by (symmetry; by apply Z.ltb_lt).
  eexists _, _. split; [by simplify_map_eq|]. split; [by simplify_map_eq|].
  split; [by apply true_div_same|]. split; [by apply true_div_same|].
  split; by simplify_map_eq.
Qed.

Lemma evaluate_perfect_witness :
  ∃ p r : Q,
    evaluate_predictions {[ KStr "L1" := {[ "status" := VStr "qualified" ]} ]}
      {[ "L1" := "qualified" ]} !! "precision" = Some (VFloat p)
    ∧ evaluate_predictions {[ KStr "L1" := {[ "status" := VStr "qualified" ]} ]}
        {[ "L1" := "qualified" ]} !! "recall" = Some (VFloat r)
    ∧ (p == 1)%Q ∧ (r == 1)%Q
    ∧ evaluate_predictions {[ KStr "L1" := {[ "status" := VStr "qualified" ]} ]}
        {[ "L1" := "qualified" ]} !! "fp" = Some (VInt 0)
    ∧ evaluate_predictions {[ KStr "L1" := {[ "status" := VStr "qualified" ]} ]}
        {[ "L1" := "qualified" ]} !! "fn" = Some (VInt 0).
Proof.
  apply (evaluate_perfect _ _ "L1"); [|reflexivity].
  intros id label Hl. apply lookup_singleton_Some in Hl as [<- <-]. reflexivity.
Defined.

(** X11: [evaluate_predictions] reads nothing but the [status] of the
    labeled ids: two CRMs that give every labeled id the same reading
    ("qualified" or not) give the same metrics. *)
Theorem evaluate_reads_status db1 db2 (labeled : gmap string string) :
  (∀ id, is_Some (labeled !! id) →
     predicted_qualified db1 id = predicted_qualified db2 id) →
  evaluate_predictions db1 labeled = evaluate_predictions db2 labeled.
Proof.
  intros Hext. rewrite !evaluate_predictions_unfold.
  assert (Hc : ∀ p l, cell_count db1 p l (map_to_list labeled)
                      = cell_count db2 p l (map_to_list labeled)).
  { intros p l. apply cell_count_ext. intros [id label] Hin.
    apply elem_of_map_to_list in Hin. apply Hext. by eexists. }
  by rewrite !Hc.
Qed.

Lemma evaluate_reads_status_witness :
  evaluate_predictions {[ KStr "L1" := {[ "status" := VStr "nurture" ]} ]}
    {[ "L1" := "qualified" ]}
  = evaluate_predictions ∅ {[ "L1" := "qualified" ]}.
Proof.
  apply evaluate_reads_status.
  intros id [label Hl]. apply lookup_singleton_Some in Hl as [<- <-]. reflexivity.
Defined.

(** X12: an upsert that carries no [status] does not change the metrics:
    the drafts of the outreach agent and the marks of the follow-ups leave
    the evaluation as it is. *)
Theorem evaluate_after_upsert db key (payload : dict)
    (labeled : gmap string string) :
  payload !! "status" = None →
  evaluate_predictions (CRMTool.upsert db key payload) labeled
  = evaluate_predictions db labeled.
Proof.
  intros Hp. rewrite !evaluate_predictions_unfold.
  assert (Hc : ∀ p l,
    cell_count (CRMTool.upsert db key payload) p l (map_to_list labeled)
    = cell_count db p l (map_to_list labeled)).
  { intros p l. apply cell_count_ext. intros [id label] _. cbn.
    unfold predicted_qualified.
    destruct (decide (key = KStr id)) as [->|Hne].
    - rewrite get_upsert_eq. by rewrite lookup_union_r.
    - by rewrite get_upsert_ne. }
  by rewrite !Hc.
Qed.

Lemma evaluate_after_upsert_witness :
  evaluate_predictions
    (CRMTool.upsert ∅ (KStr "L1") {[ "followup_due" := VBool true ]})
    {[ "L1" := "qualified" ]}
  = evaluate_predictions ∅ {[ "L1" := "qualified" ]}.
Proof. apply evaluate_after_upsert. reflexivity. Defined.

(** ** More on orchestration *)

Module BatchMore.
Import OrchestrationAgent BatchInvariant.

Section more.
Variable enricher : dict → result dict.
Variable leads : list dict.
Variable mem0 : MemoryBank.t.

Abbreviation step := (step enricher).
Abbreviation batch_record := (batch_record enricher leads).

(** X13: [handle_batch] ends under every schedule.  No execution from the
    start of a batch of [n] leads has more than [6 n + 3] steps, and a
    state from which no step is possible has returned: no thread waits for
    ever. *)
Theorem handle_batch_terminates :
  (∀ n st, nsteps step n (init leads mem0) st →
     (n ≤ 6 * length leads + 3)%nat)
  ∧ (∀ st, (∀ st', ¬ step st st') →
       ∃ results, main st = MReturn results).
Proof.
  split.
  - intros n st Hn. apply BatchProofs.nsteps_measure in Hn.
    unfold measure, init in Hn. cbn in Hn. lia.
  - intros st Hstuck.
    destruct (next enricher (inject_Z 0) st) as [st'|] eqn:Hnext.
    + apply BatchProofs.next_step in Hnext. by apply Hstuck in Hnext.
    + by apply (BatchProofs.next_progress enricher (inject_Z 0)).
Qed.

Lemma step_ledger st st' key :
  BatchInvariant.inv enricher leads mem0 st → step st st' →
  MemoryBank.read (memory st') key = MemoryBank.read (memory st) key
  ∨ ∃ r, batch_record key r
         ∧ MemoryBank.read (memory st') key
           = MemoryBank.read (memory st) key ++ [r].
Proof.
  intros [Hl Ht _ _ _ _] Hstep.
  destruct Hstep as [| | | | | |ths mem q m k t now pc' mem' q' Hk Hw];
    try by left.
  cbn in *. apply BatchProofs.worker_step_case in Hw.
  destruct t as [lead pc]. cbn [th_lead th_pc] in *.
  destruct Hw as [| |en key' now' Hkey| |]; try by left.
  destruct (decide (key' = key)) as [->|Hne].
  - right. eexists. split; [|apply read_write_eq].
    exists lead, en, now'. split; [|split; [done|split; [|done]]].
    + rewrite <- Hl. apply elem_of_app. left.
      apply list_elem_of_In.
      apply (in_map th_lead _ (Thread lead (WWrite en))), list_elem_of_In.
      by eapply list_elem_of_lookup_2.
    + eapply Forall_lookup_1 in Ht; [|done]. exact Ht.
  - left. by apply read_write_ne.
Qed.

(** X14: what [handle_batch] does to the memory bank.  In every state it
    reaches, the sequence of each id is the sequence it had at the start
    followed by new records, and each new record is the [enriched] record
    of a lead of the batch with that id, holding what the enricher
    returned for the lead.  Nothing is removed or reordered, and an id
    that no lead of the batch carries keeps its sequence. *)
Theorem handle_batch_ledger st key :
  rtc step (init leads mem0) st →
  ∃ events,
    MemoryBank.read (memory st) key = MemoryBank.read mem0 key ++ events
    ∧ Forall (batch_record key) events
    ∧ ((∀ lead, lead ∈ leads → lead_key lead ≠ Ok key) → events = []).
Proof.
  intros Hrtc.
  enough (∃ events,
    MemoryBank.read (memory st) key = MemoryBank.read mem0 key ++ events
    ∧ Forall (batch_record key) events) as (events & Hev & Hall).
  { exists events. split; [done|]. split; [done|].
    intros Hnone. destruct events as [|r events]; [done|].
    apply Forall_cons in Hall as [(lead & _ & _ & Hin & Hk & _) _].
    by apply Hnone in Hin. }
  revert st Hrtc. apply rtc_ind_r.
  - exists []. by rewrite app_nil_r.
  - intros st st' Hrtc Hstep (events & Hev & Hall).
    apply BatchProofs.reachable_inv in Hrtc.
    destruct (step_ledger st st' key Hrtc Hstep) as [->|(r & Hr & ->)].
    + by exists events.
    + exists (events ++ [r]). split.
      * by rewrite Hev, <- app_assoc.
      * apply Forall_app. split; [done|]. by constructor.
Qed.

End more.

(** X15: on the empty batch [handle_batch] returns the empty list and
    leaves the memory bank as it was. *)
Theorem handle_batch_empty enricher (mem0 : MemoryBank.t) st results :
  rtc (OrchestrationAgent.step enricher) (init [] mem0) st →
  main st = MReturn results →
  results = [] ∧ memory st = mem0 ∧ threads st = [].
Proof.
  intros Hrtc Hmain.
  enough (threads st = [] ∧ memory st = mem0 ∧ queue st = []
          ∧ results_of (main st) = [] ∧ todo_of (main st) = [])
    as (? & ? & _ & Hres & _).
  { rewrite Hmain in Hres. done. }
  clear Hmain results. revert st Hrtc. apply rtc_ind_r; [done|].
  intros st st' _ Hstep (Hths & Hmem & Hq & Hres & Htodo).
  destruct Hstep; cbn in *; simplify_eq; try done.
Qed.

End BatchMore.

Lemma handle_batch_ledger_witness :
  ∃ events,
    MemoryBank.read
      (OrchestrationAgent.memory
         (BatchInvariant.run CompanyEnricherTool.run (inject_Z 0) 15
            (OrchestrationAgent.init [acme_lead] ∅))) (KStr "L1")
    = MemoryBank.read ∅ (KStr "L1") ++ events
    ∧ Forall (batch_record CompanyEnricherTool.run [acme_lead] (KStr "L1"))
             events
    ∧ ((∀ lead, lead ∈ [acme_lead] → lead_key lead ≠ Ok (KStr "L1")) →
       events = []).
Proof.
  apply (BatchMore.handle_batch_ledger CompanyEnricherTool.run [acme_lead] ∅).
  apply BatchProofs.run_rtc.
Defined.

Lemma handle_batch_empty_witness :
  ([] : list dict) = []
  ∧ OrchestrationAgent.memory
      (BatchInvariant.run CompanyEnricherTool.run (inject_Z 0) 5
         (OrchestrationAgent.init [] ∅)) = ∅
  ∧ OrchestrationAgent.threads
      (BatchInvariant.run CompanyEnricherTool.run (inject_Z 0) 5
         (OrchestrationAgent.init [] ∅)) = [].
Proof.
  apply (BatchMore.handle_batch_empty CompanyEnricherTool.run ∅).
  - apply BatchProofs.run_rtc.
  - reflexivity.
Defined.

(** ** More on follow-ups *)

Module FollowUpMore.
Import FollowUpScheduler FollowUpLifecycle.

(** What [schedule] leaves behind.  It always starts a thread.  With
    an id that is a key it returns [True] and records the thread, the note
    and the delay under the id, replacing what an earlier call recorded
    there and touching no other entry; with an unhashable id it raises
    [TypeError] after the thread is started and records nothing.  The
    stores are not touched. *)
Lemma schedule_registry st lead_id delay note :
  waiters (schedule st lead_id delay note).2
    = waiters st ++ [Waiter lead_id delay note FSleep]
  ∧ crm (schedule st lead_id delay note).2 = crm st
  ∧ memory (schedule st lead_id delay note).2 = memory st
  ∧ match to_key lead_id with
    | Ok key =>
        (schedule st lead_id delay note).1 = Ok true
        ∧ scheduled (schedule st lead_id delay note).2 !! key
          = Some (Entry (length (waiters st)) note delay)
        ∧ ∀ key', key' ≠ key →
            scheduled (schedule st lead_id delay note).2 !! key'
            = scheduled st !! key'
    | Raise e =>
        e = TypeError
        ∧ (schedule st lead_id delay note).1 = Raise TypeError
        ∧ scheduled (schedule st lead_id delay note).2 = scheduled st
    end.
Proof.
  destruct (FollowUpProofs.schedule_waiters st lead_id delay note)
    as (Hw & Hc & Hm).
  split; [done|]. split; [done|]. split; [done|].
  unfold schedule. destruct lead_id; cbn; try done.
  all: split; [done|]; split; [by rewrite lookup_insert_eq|];
    intros key' Hne; by rewrite lookup_insert_ne.
Qed.

Lemma step_registry_ok st st' : step st st' → registry_ok st → registry_ok st'.
Proof.
  intros Hstep Hok key e.
  destruct Hstep as [st lead_id delay note|st h w now pc' db' mem' Hh Hw].
  - unfold schedule. destruct (to_key lead_id) as [k|err] eqn:Hk; cbn.
    + destruct (decide (k = key)) as [->|Hne].
      * rewrite lookup_insert_eq. intros [= <-]. cbn.
        eexists. split; [by apply list_lookup_middle|done].
      * rewrite lookup_insert_ne by done. intros He.
        destruct (Hok key e He) as (w & Hw & ?).
        exists w. split; [by apply lookup_app_l_Some|done].
    + intros He. destruct (Hok key e He) as (w & Hw & ?).
      exists w. split; [by apply lookup_app_l_Some|done].
  - cbn. intros He. destruct (Hok key e He) as (w0 & Hw0 & Hrest).
    destruct (decide (e_thread e = h)) as [Heq|Hne].
    + rewrite Heq in Hw0 |- *. rewrite Hh in Hw0. injection Hw0 as <-.
      exists (set_pc w pc'). split; [|by destruct w].
      apply list_lookup_insert_eq. by eapply lookup_lt_Some.
    + exists w0. by rewrite list_lookup_insert_ne.
Qed.

(** X16: in every state the scheduler reaches, each entry of
    [self.scheduled] names a thread that was started, for that id, with
    the note and the delay of the entry; there are at least as many
    threads as entries, since a second call for an id replaces the entry
    and keeps both threads. *)
Theorem scheduled_registry (db0 : CRMTool.t) (mem0 : MemoryBank.t) st :
  rtc step (init db0 mem0) st →
  registry_ok st ∧ (size (scheduled st) ≤ length (waiters st))%nat.
Proof.
  revert st. apply rtc_ind_r.
  - split; [by intros key e|]. cbn. by rewrite map_size_empty.
  - intros st st' _ Hstep [Hok Hsize]. split; [by eapply step_registry_ok|].
    destruct Hstep as [st lead_id delay note|st h w now pc' db' mem' Hh Hw].
    + unfold schedule. destruct (to_key lead_id); cbn.
      * rewrite length_app, map_size_insert. cbn.
        destruct (scheduled st !! a); cbn; lia.
      * rewrite length_app. lia.
    + cbn. by rewrite length_insert.
Qed.



End FollowUpMore.

(** ** Outreach *)

(** X19: [draft] returns a subject and a body and stores the same two
    under [outreach] in the record of the lead; every other field of the
    record and every other record stay as they are.  A lead without an id
    raises [KeyError]. *)
Theorem draft_effect fmt lead (db : CRMTool.t) :
  match lead_key lead with
  | Ok key =>
      ∃ out : dict,
        OutreachAgent.draft fmt lead db
        = Ok (out, CRMTool.upsert db key {[ "outreach" := VDict out ]})
        ∧ dom out = {[ "subject"; "body" ]}
        ∧ CRMTool.get (CRMTool.upsert db key {[ "outreach" := VDict out ]}) key
            !! "outreach" = Some (VDict out)
        ∧ (∀ f, f ≠ "outreach" →
             CRMTool.get (CRMTool.upsert db key {[ "outreach" := VDict out ]}) key
               !! f = CRMTool.get db key !! f)
        ∧ (∀ id, id ≠ key →
             CRMTool.upsert db key {[ "outreach" := VDict out ]} !! id = db !! id)
  | Raise e =>
      OutreachAgent.draft fmt lead db = Raise e
      ∧ (lead !! "id" = None → e = KeyError)
  end.
Proof.
  unfold OutreachAgent.draft, OutreachAgent.draft_parts, lead_key, dict_item.
  destruct (lead !! "id") as [id|]; cbn [bind]; [|done].
  destruct (to_key id) as [key|e]; cbn [bind]; [|done].
  eexists. split; [done|]. split.
  { rewrite dom_insert_L, dom_singleton_L. set_solver. }
  rewrite get_upsert_eq. split.
  { apply lookup_union_Some_l. by rewrite lookup_singleton_eq. }
  split.
  - intros f Hf. apply lookup_union_r. by rewrite lookup_singleton_ne.
  - intros id' Hne. unfold CRMTool.upsert. by rewrite lookup_insert_ne.
Qed.


(** ** The pipeline *)

Module PipelineProofs.
Import Pipeline.

Lemma score_parts_inv lead q key payload :
  score_parts lead = Ok (q, key, payload) →
  ∃ b1 b2 b3,
    py_ge_int (dict_get lead "employee_count" (VInt 0)) 50 = Ok b1
    ∧ py_contains "FinTech" (dict_get lead "industry" (VStr "")) = Ok b2
    ∧ py_contains "Series A" (dict_get lead "recent_news" (VStr "")) = Ok b3
    ∧ lead_key lead = Ok key
    ∧ q = {[ "score" := VInt (Z.min 100 (rule_points b1 b2 b3));
             "reasons" := VList (rule_reasons b1 b2 b3 ++
               [VStr "LLM: lead looks promising due to funding and tech-stack match."]) ]}
    ∧ payload
      = {[ "score" := VInt (Z.min 100 (rule_points b1 b2 b3));
           "status" := VStr (if 50 <? Z.min 100 (rule_points b1 b2 b3)
                             then "qualified" else "nurture") ]}.
Proof.
  unfold score_parts, lead_key. intros H.
  destruct (py_ge_int _ _) as [b1|]; [|done].
  destruct (py_contains "FinTech" _) as [b2|]; [|done].
  destruct (py_contains "Series A" _) as [b3|]; [|done].
  cbn [bind] in H.
  destruct (dict_item lead "id") as [id|]; [|done]. cbn [bind] in *.
  destruct (to_key id) as [key'|]; [|done]. cbn [bind] in H.
  rewrite llm_text_qualification in H.
  exists b1, b2, b3. repeat split; try done.
  all: injection H as <- <- <-; try done.
  all: unfold rule_points, rule_reasons, QualificationAgent.rule;
    destruct b1, b2, b3; reflexivity.
Qed.

Lemma score_parts_raise lead x :
  score_parts lead = Raise x →
  ∀ now st, QualificationAgent.score lead now st = Raise x.
Proof.
  unfold score_parts, QualificationAgent.score. intros H now st.
  destruct (py_ge_int _ _) as [b1|]; [|cbn in *; congruence].
  destruct (py_contains "FinTech" _) as [b2|]; [|cbn in *; congruence].
  destruct (py_contains "Series A" _) as [b3|]; [|cbn in *; congruence].
  cbn [bind] in *.
  destruct (dict_item lead "id") as [id|]; [|cbn in *; congruence].
  cbn [bind] in *.
  destruct (to_key id) as [key'|]; [|cbn in *; congruence]. done.
Qed.

(** X20: the three steps the main thread takes to score a lead, run with
    no follow-up thread in between, change the stores as
    [QualificationAgent.score] does and leave its result to be tested. *)
Theorem score_steps fmt labeled now sh e todo processed q st' :
  QualificationAgent.score e now (crm sh, memory sh) = Ok (q, st') →
  ∃ s1 s2,
    main_step fmt labeled now sh (PNext (e :: todo) processed)
      = Some (sh, s1)
    ∧ main_step fmt labeled now sh s1 = Some s2
    ∧ main_step fmt labeled now s2.1 s2.2
      = Some (Shared st'.1 st'.2 (scheduled sh) (waiters sh),
              PScored e q todo processed).
Proof.
  intros Hs.
  destruct (score_inv _ _ _ _ _ Hs) as (b1 & b2 & b3 & key & H1 & H2 & H3 & Hk).
  rewrite (score_unfold _ now _ _ _ _ _ H1 H2 H3 Hk) in Hs.
  injection Hs as <- <-.
  assert (Hp : ∃ payload, score_parts e
    = Ok ({[ "score" := VInt (Z.min 100 (rule_points b1 b2 b3));
             "reasons" := VList (rule_reasons b1 b2 b3 ++
               [VStr "LLM: lead looks promising due to funding and tech-stack match."]) ]},
          key, payload)
    ∧ payload
      = {[ "score" := VInt (Z.min 100 (rule_points b1 b2 b3));
           "status" := VStr (if 50 <? Z.min 100 (rule_points b1 b2 b3)
                             then "qualified" else "nurture") ]}).
  { unfold score_parts. rewrite H1, H2, H3. cbn [bind].
    unfold lead_key in Hk.
    destruct (dict_item e "id") as [id|]; [|done]. cbn [bind] in *.
    rewrite Hk. cbn [bind]. rewrite llm_text_qualification.
    eexists. split; [|reflexivity].
    unfold rule_points, rule_reasons, QualificationAgent.rule.
    destruct b1, b2, b3; reflexivity. }
  destruct Hp as (payload & Hp & ->).
  eexists _, _. split; [|split].
  - cbn. by rewrite Hp.
  - reflexivity.
  - reflexivity.
Qed.


Lemma record_ok_empty : record_ok ∅.
Proof. done. Qed.

Lemma record_ok_score (s : Z) (old : dict) :
  record_ok ({[ "score" := VInt s;
                "status" := VStr (if 50 <? s then "qualified" else "nurture") ]}
             ∪ old).
Proof.
  unfold record_ok.
  rewrite (lookup_union_Some_l _ old "score" (VInt s))
    by by rewrite lookup_insert_eq.
  by rewrite (lookup_union_Some_l _ old "status"
                (VStr (if 50 <? s then "qualified" else "nurture")))
    by by rewrite lookup_insert_ne, lookup_singleton_eq.
Qed.

Lemma record_ok_other (payload old : dict) :
  payload !! "score" = None → payload !! "status" = None →
  record_ok old → record_ok (payload ∪ old).
Proof.
  intros H1 H2 Hok. unfold record_ok in *.
  rewrite (lookup_union_r payload old "score" H1).
  by rewrite (lookup_union_r payload old "status" H2).
Qed.

Lemma get_insert (db : CRMTool.t) (key key' : pykey) (r : dict) :
  CRMTool.get (<[key := r]> db) key'
  = if decide (key = key') then r else CRMTool.get db key'.
Proof.
  unfold CRMTool.get. rewrite lookup_insert. by case_decide.
Qed.

Lemma draft_parts_ok fmt e key :
  lead_key e = Ok key →
  ∃ out payload,
    OutreachAgent.draft_parts fmt e = Ok (out, key, payload)
    ∧ payload !! "score" = None ∧ payload !! "status" = None.
Proof.
  unfold lead_key, OutreachAgent.draft_parts. intros Hk.
  destruct (dict_item e "id") as [id|]; [|done]. cbn [bind] in *.
  rewrite Hk. cbn [bind]. by eexists _, _.
Qed.

Lemma draft_parts_payload fmt e out key payload :
  OutreachAgent.draft_parts fmt e = Ok (out, key, payload) →
  payload !! "score" = None ∧ payload !! "status" = None.
Proof.
  unfold OutreachAgent.draft_parts. intros H.
  destruct (dict_item e "id") as [id|]; [|done]. cbn [bind] in *.
  destruct (to_key id); [|done]. cbn [bind] in H. by injection H as <- <- <-.
Qed.

Section loop.
Variable fmt : pyval → string.
Variable labeled : option (gmap string string).
Variable enriched : list dict.

Abbreviation step := (step fmt labeled).
Abbreviation inv := (inv fmt enriched).

Lemma inv_start mem : inv (start mem enriched).
Proof.
  constructor; cbn.
  - exists []. split; [done|constructor].
  - by intros processed [= <-].
  - intros key. apply record_ok_empty.
  - done.
  - constructor.
Qed.

Lemma filter_above_50_snoc processed p :
  length (filter above_50 (processed ++ [p]))
  = (length (filter above_50 processed)
     + if decide (above_50 p) then 1 else 0)%nat.
Proof.
  rewrite filter_app, length_app, filter_cons, filter_nil.
  by destruct (decide (above_50 p)).
Qed.

Lemma main_step_inv now sh pc sh' pc' :
  main_step fmt labeled now sh pc = Some (sh', pc') →
  inv (sh, pc) → inv (sh', pc').
Proof.
  intros Hstep [Hmain Hcount Hcrm Hheld Hws]. cbn [fst snd] in *.
  destruct pc as [[|e todo] processed|e q key payload old todo processed
    |e q key todo processed|e q todo processed
    |e q key payload old todo processed|e q todo processed
    |[|item items] c processed|processed metrics|x]; cbn in Hstep.
  - (* the loop is over *)
    destruct Hmain as (done & Henr & Hall). rewrite app_nil_r in Henr. subst done.
    assert (inv (sh, PReturn processed ∅)).
    { constructor; cbn; try done. }
    assert (∀ items c, inv (sh, PEvaluate items c processed)).
    { constructor; cbn; try done. }
    destruct labeled as [l|]; [|by injection Hstep as <- <-].
    destruct (decide (l = ∅)); by injection Hstep as <- <-.
  - (* [qual.score(e)] begins *)
    destruct Hmain as (done & Henr & Hall).
    destruct (score_parts e) as [[[q key] payload]|x] eqn:Hs;
      injection Hstep as <- <-.
    + constructor; cbn; try done.
      * by exists done.
      * by intros old [= <-].
    + constructor; cbn; try done.
      exists e. split; [|done]. rewrite Henr. apply elem_of_app. right. apply list_elem_of_here.
  - (* the score is assigned to the record *)
    injection Hstep as <- <-. destruct Hmain as (done & Henr & Hall & Hs).
    constructor; cbn; try done.
    + by exists done, payload.
    + intros key'. rewrite get_insert. case_decide; [|done].
      destruct (score_parts_inv _ _ _ _ Hs) as (b1 & b2 & b3 & _ & _ & _ & _ & _ & ->).
      apply record_ok_score.
  - (* the qualification is written to the memory bank *)
    injection Hstep as <- <-. destruct Hmain as (done & payload & Henr & Hall & Hs).
    constructor; cbn; try done. by exists done, key, payload.
  - (* the test, and [out.draft(e)] begins *)
    destruct Hmain as (done & key & payload & Henr & Hall & Hs).
    destruct (score_parts_inv _ _ _ _ Hs)
      as (b1 & b2 & b3 & _ & _ & _ & Hk & -> & ->).
    cbn in Hstep. unfold dict_item in Hstep.
    rewrite lookup_insert_eq in Hstep. cbn in Hstep.
    set (s := Z.min 100 (rule_points b1 b2 b3)) in *.
    set (q := ({[ "score" := VInt s; "reasons" := _ ]} : dict)) in *.
    assert (Hq : (q ∪ e) !! "score" = Some (VInt s)).
    { apply lookup_union_Some_l. unfold q. by rewrite lookup_insert_eq. }
    destruct (50 <? s) eqn:Hlt.
    + apply Z.ltb_lt in Hlt.
      destruct (draft_parts_ok fmt e key Hk) as (out & pl & Hd & _).
      rewrite Hd in Hstep. injection Hstep as <- <-.
      constructor; cbn; try done.
      * eexists done, key, _, out. repeat split; try done. by exists s.
      * by intros old [= <-].
    + apply Z.ltb_ge in Hlt. injection Hstep as <- <-.
      constructor; cbn; try done.
      * exists (done ++ [e]). split; [by rewrite Henr, <- app_assoc|].
        apply Forall2_app; [done|]. constructor; [|constructor].
        by eexists _, _, _.
      * intros processed' [= <-]. rewrite filter_above_50_snoc.
        rewrite (Hcount processed eq_refl).
        destruct (decide (above_50 (q ∪ e))) as [(s' & Hs' & ?)|]; [|lia].
        rewrite Hq in Hs'. injection Hs' as <-. lia.
  - (* the draft is assigned to the record *)
    injection Hstep as <- <-.
    destruct Hmain as (done & key' & payload' & out & Henr & Hall & Hs & Hd & Ha).
    constructor; cbn; try done.
    + by exists done, key', payload'.
    + intros key''. rewrite get_insert. case_decide; [|done].
      destruct (draft_parts_payload _ _ _ _ _ Hd).
      apply record_ok_other; try done. by apply Hheld.
  - (* [scheduler.schedule] *)
    destruct Hmain as (done & key & payload & Henr & Hall & Hs & Ha).
    destruct (score_parts_inv _ _ _ _ Hs)
      as (b1 & b2 & b3 & _ & _ & _ & Hk & _ & _).
    unfold lead_key in Hk.
    destruct (dict_item e "id") as [id|]; [|done]. cbn [bind] in Hk.
    rewrite Hk in Hstep. injection Hstep as <- <-.
    constructor; cbn; try done.
    + exists (done ++ [e]). split; [by rewrite Henr, <- app_assoc|].
      apply Forall2_app; [done|]. constructor; [|constructor].
      by eexists _, _, _.
    + intros processed' [= <-]. rewrite filter_above_50_snoc, length_app.
      rewrite (Hcount processed eq_refl). cbn.
      by destruct (decide (above_50 (q ∪ e))).
    + apply Forall_app. split; [done|]. by repeat constructor.
  - (* the loop of the evaluation is over *)
    injection Hstep as <- <-. constructor; cbn; try done.
  - (* one labeled id is counted *)
    injection Hstep as <- <-. constructor; cbn; try done.
  - done.
  - done.
Qed.

Lemma waiter_step_inv now sh pc h w pc' db' mem' :
  waiters sh !! h = Some w →
  waiter_step now w sh = Some (pc', db', mem') →
  inv (sh, pc) →
  inv (Shared db' mem' (scheduled sh)
         (<[h := Waiter (t_lead w) (t_delay w) (t_note w) pc']> (waiters sh)),
       pc).
Proof.
  intros Hh Hstep [Hmain Hcount Hcrm Hheld Hws]. cbn [fst snd] in *.
  assert (Hw : ∀ old, held_by_waiter w = Some old → record_ok old).
  { by eapply Forall_lookup_1 in Hws. }
  unfold waiter_step in Hstep. unfold held_by_waiter in Hw.
  constructor; cbn [fst snd crm waiters]; try done.
  - intros processed Hp. rewrite length_insert. by apply Hcount.
  - intros key'. destruct (t_pc w); simplify_eq; try done.
    + destruct (t_delay w <? 0); [by simplify_eq|].
      destruct (to_key (t_lead w)); by simplify_eq.
    + rewrite get_insert. case_decide; [|done].
      apply record_ok_other; try done. by apply Hw.
  - apply Forall_insert; [done|]. unfold held_by_waiter. cbn.
    intros old Hold. destruct (t_pc w); simplify_eq.
    destruct (t_delay w <? 0); [by simplify_eq|].
    destruct (to_key (t_lead w)); by simplify_eq.
Qed.

Lemma loop_step_inv s s' : step s s' → inv s → inv s'.
Proof.
  intros [now sh pc sh' pc' Hm|now sh pc h w pc' db' mem' Hh Hw] Hinv.
  - by eapply main_step_inv.
  - by eapply waiter_step_inv.
Qed.

Lemma loop_reachable_inv mem s : rtc step (start mem enriched) s → inv s.
Proof.
  revert s. apply rtc_ind_r; [apply inv_start|].
  intros s s' _ Hstep IH. by eapply loop_step_inv.
Qed.

End loop.
End PipelineProofs.

(** ** More on the pipeline *)

Module PipelineMore.
Import Pipeline.

Lemma run_main_rtc fmt labeled now fuel s :
  rtc (step fmt labeled) s (run_main fmt labeled now fuel s).
Proof.
  revert s. induction fuel as [|fuel IH]; intros [sh pc]; cbn; [done|].
  destruct (main_step fmt labeled now sh pc) as [[sh' pc']|] eqn:Hm; [|done].
  eapply rtc_l; [by eapply step_main|]. apply IH.
Qed.

Section more.
Variable fmt : pyval → string.
Variable labeled : option (gmap string string).
Variable enriched : list dict.

Abbreviation step := (step fmt labeled).

(** X21: the CRM stays coherent through the loop of the pipeline, with
    the follow-up threads running beside it and every upsert split into
    its read and its assignment: in every state, each record has an
    integer score and the status that goes with it ("qualified" above 50,
    "nurture" otherwise), or it has neither. *)
Theorem pipeline_records mem s key :
  rtc step (start mem enriched) s →
  record_ok (CRMTool.get (crm s.1) key).
Proof.
  intros Hrtc. by apply (PipelineProofs.loop_reachable_inv fmt labeled) in Hrtc as [].
Qed.

(** X22: when the loop returns, [processed] has one entry per enriched
    lead, in the order of the leads, each the lead merged with its score
    result; and one follow-up thread has been started for each entry with
    a score above 50, no more and no fewer. *)
Theorem pipeline_processed mem sh processed metrics :
  rtc step (start mem enriched) (sh, PReturn processed metrics) →
  Forall2 processed_of enriched processed
  ∧ length processed = length enriched
  ∧ length (waiters sh) = length (filter above_50 processed).
Proof.
  intros Hrtc.
  apply (PipelineProofs.loop_reachable_inv fmt labeled) in Hrtc
    as [Hmain Hcount _ _ _].
  cbn in *. split; [done|]. split.
  - symmetry. by eapply Forall2_length.
  - by apply Hcount.
Qed.

(** X23: the loop raises only what scoring raises.  If the pipeline ends
    with an exception after the batch is enriched, some enriched lead
    cannot be scored, and the exception is the one [score] raises on it:
    neither the draft, nor the scheduling, nor the evaluation raises. *)
Theorem pipeline_raises mem sh x :
  rtc step (start mem enriched) (sh, PRaised x) →
  ∃ e, e ∈ enriched
       ∧ ∀ now st, QualificationAgent.score e now st = Raise x.
Proof.
  intros Hrtc.
  apply (PipelineProofs.loop_reachable_inv fmt labeled) in Hrtc
    as [(e & Hin & He) _ _ _ _].
  exists e. split; [done|]. by apply PipelineProofs.score_parts_raise.
Qed.

Lemma step_later_records s s' key :
  step s s' →
  MemoryBank.read (memory s'.1) key = MemoryBank.read (memory s.1) key
  ∨ ∃ r, later_record r
         ∧ MemoryBank.read (memory s'.1) key
           = MemoryBank.read (memory s.1) key ++ [r].
Proof.
  intros [now sh pc sh' pc' Hm|now sh pc h w pc' db' mem' Hh Hw]; cbn.
  - destruct pc as [[|e todo] processed|e q k payload old todo processed
      |e q k todo processed|e q todo processed
      |e q k payload old todo processed|e q todo processed
      |[|item items] c processed|processed metrics|x]; cbn in Hm;
      repeat case_match; simplify_eq; cbn; try by left.
    destruct (decide (k = key)) as [->|Hne].
    + right. eexists. split; [|apply read_write_eq]. left. by eexists _, _.
    + left. by apply read_write_ne.
  - unfold waiter_step in Hw.
    destruct (t_pc w) as [|k old|k| |]; repeat case_match; simplify_eq;
      try by left.
    destruct (decide (k = key)) as [->|Hne].
    + right. eexists. split; [|apply read_write_eq]. right. by eexists _, _.
    + left. by apply read_write_ne.
Qed.

(** X24: after the enrichment the memory bank only gains qualification
    and follow-up records, at the end of the sequences: in every state of
    the loop the sequence of each id is the one [handle_batch] left,
    followed by records of these two kinds, so the [enriched] records of
    an id come before every other record of the run. *)
Theorem pipeline_ledger mem s key :
  rtc step (start mem enriched) s →
  ∃ events,
    MemoryBank.read (memory s.1) key = MemoryBank.read mem key ++ events
    ∧ Forall later_record events.
Proof.
  revert s. apply rtc_ind_r.
  - exists []. by rewrite app_nil_r.
  - intros s1 s2 _ Hstep (events & Hev & Hall).
    destruct (step_later_records s1 s2 key Hstep) as [->|(r & Hr & ->)].
    + by exists events.
    + exists (events ++ [r]). split.
      * by rewrite Hev, <- app_assoc.
      * apply Forall_app. split; [done|]. by constructor.
Qed.




End more.

Lemma worker_output_scorable lead e :
  BatchInvariant.worker_output CompanyEnricherTool.run lead = Some e →
  ∃ parts, score_parts e = Ok parts.
Proof.
  unfold BatchInvariant.worker_output. intros H.
  destruct (CompanyEnricherTool.run lead) as [en|] eqn:Hrun; [|done].
  destruct (lead_key lead) as [key|] eqn:Hk; [|done].
  injection H as <-.
  destruct (run_inv _ _ Hrun)
    as (name & series_a & count & data & Hn & Hs & Hc & Hd & Hid & Hen).
  destruct (run_shape _ _ Hrun) as (_ & _ & _ & _ & _ & Hide & _ & _).
  unfold score_parts.
  assert (H1 : dict_get (en ∪ lead) "employee_count" (VInt 0) = VInt count).
  { unfold dict_get. erewrite lookup_union_Some_l; [done|].
    rewrite Hen. by simplify_map_eq. }
  assert (H2 : dict_get (en ∪ lead) "industry" (VStr "")
               = VStr (industry_of name)).
  { unfold dict_get. erewrite lookup_union_Some_l; [done|].
    rewrite Hen. by simplify_map_eq. }
  assert (H3 : dict_get (en ∪ lead) "recent_news" (VStr "")
               = dict_get lead "notes" (VStr "")).
  { unfold dict_get at 1. erewrite lookup_union_Some_l; [done|].
    rewrite Hen. by simplify_map_eq. }
  rewrite H1, H2, H3, Hs. cbn [py_ge_int py_contains bind].
  unfold lead_key, dict_item in *. rewrite Hide.
  destruct (lead !! "id") as [id|]; [|done]. cbn [bind] in *.
  rewrite Hk. cbn [bind]. by eexists.
Qed.

(** X26: [pipeline] does not raise.  On any batch of leads, with the
    enricher of the module, no state the function reaches after the
    enrichment has ended with an exception: a lead the enricher cannot
    handle is dropped by [handle_batch], and every lead it returns can be
    scored, drafted for and scheduled. *)
Theorem pipeline_never_raises fmt labeled leads s :
  reaches fmt labeled leads s →
  ∀ x, s.2 ≠ PRaised x.
Proof.
  intros (st & enriched & Hbatch & Hmain & Hloop) x Hx.
  destruct s as [sh pc]. cbn in Hx. subst pc.
  destruct (pipeline_raises fmt labeled enriched _ _ _ Hloop) as (e & Hin & He).
  destruct (BatchProofs.inv_returned _ _ _ st enriched
              (BatchProofs.reachable_inv _ _ _ st Hbatch) Hmain)
    as (_ & _ & _ & Hperm & _).
  rewrite Hperm in Hin. apply list_elem_of_omap in Hin as (lead & _ & Hout).
  destruct (worker_output_scorable _ _ Hout) as [parts Hparts].
  specialize (He (inject_Z 0) (∅, ∅)).
  unfold QualificationAgent.score in He. unfold score_parts in Hparts.
  destruct (py_ge_int _ _) as [b1|]; [|done].
  destruct (py_contains "FinTech" _) as [b2|]; [|done].
  destruct (py_contains "Series A" _) as [b3|]; [|done].
  cbn [bind] in *.
  destruct (dict_item e "id") as [id|]; [|done]. cbn [bind] in *.
  destruct (to_key id) as [key'|]; done.
Qed.

End PipelineMore.

Lemma pipeline_records_witness :
  Pipeline.record_ok
    (CRMTool.get
       (Pipeline.crm
          (run_main fmt_text None (inject_Z 0) 8
             (Pipeline.start ∅ [fin_lead])).1)
       (KStr "L3")).
Proof.
  apply (PipelineMore.pipeline_records fmt_text None [fin_lead] ∅).
  apply PipelineMore.run_main_rtc.
Defined.

Lemma pipeline_processed_witness :
  let s := run_main fmt_text None (inject_Z 0) 8 (Pipeline.start ∅ [fin_lead]) in
  ∃ processed,
    s.2 = Pipeline.PReturn processed ∅
    ∧ Forall2 Pipeline.processed_of [fin_lead] processed
    ∧ length processed = 1%nat
    ∧ length (Pipeline.waiters s.1) = length (filter Pipeline.above_50 processed).
Proof.
  intros s.
  assert (Hpc : ∃ processed, s.2 = Pipeline.PReturn processed ∅)
    by (eexists; reflexivity).
  destruct Hpc as [processed Hpc]. exists processed. split; [exact Hpc|].
  apply (PipelineMore.pipeline_processed fmt_text None [fin_lead] ∅ s.1
           processed ∅).
  rewrite <- Hpc. rewrite <- surjective_pairing.
  apply PipelineMore.run_main_rtc.
Defined.

Lemma pipeline_raises_witness :
  ∃ e, e ∈ [(∅ : dict)]
       ∧ ∀ now st, QualificationAgent.score e now st = Raise KeyError.
Proof.
  apply (PipelineMore.pipeline_raises fmt_text None [∅] ∅
           (Pipeline.Shared ∅ ∅ ∅ [])).
  apply rtc_once. by apply (Pipeline.step_main fmt_text None (inject_Z 0)).
Defined.

Lemma pipeline_never_raises_witness :
  (run_main fmt_text None (inject_Z 0) 8
     (Pipeline.start
        (OrchestrationAgent.memory
           (BatchInvariant.run CompanyEnricherTool.run (inject_Z 0) 15
              (OrchestrationAgent.init [acme_lead] ∅)))
        [acme_enriched ∪ acme_lead])).2
  ≠ Pipeline.PRaised KeyError.
Proof.
  apply (PipelineMore.pipeline_never_raises fmt_text None [acme_lead]).
  exists (BatchInvariant.run CompanyEnricherTool.run (inject_Z 0) 15
            (OrchestrationAgent.init [acme_lead] ∅)),
         [acme_enriched ∪ acme_lead].
  split; [apply BatchProofs.run_rtc|].
  split; [reflexivity|]. apply PipelineMore.run_main_rtc.
Defined.

Lemma scheduled_registry_witness :
  registry_ok FollowUpLifecycle.after_schedule
  ∧ (size (FollowUpScheduler.scheduled FollowUpLifecycle.after_schedule)
     ≤ length (FollowUpScheduler.waiters FollowUpLifecycle.after_schedule))%nat.
Proof.
  apply (FollowUpMore.scheduled_registry ∅ ∅).
  apply rtc_once.
  apply (FollowUpScheduler.step_schedule _ (VStr "L1") 5 "1st follow up").
Defined.



Lemma pipeline_ledger_witness :
  ∃ events,
    MemoryBank.read
      (Pipeline.memory
         (run_main fmt_text None (inject_Z 0) 8
            (Pipeline.start ∅ [fin_lead])).1) (KStr "L3")
    = MemoryBank.read ∅ (KStr "L3") ++ events
    ∧ Forall later_record events.
Proof.
  apply (PipelineMore.pipeline_ledger fmt_text None [fin_lead] ∅).
  apply PipelineMore.run_main_rtc.
Defined.


(** ** The string tests *)







Lemma score_steps_witness :
  ∃ s1 s2,
    Pipeline.main_step fmt_text None (inject_Z 0) (Pipeline.Shared ∅ ∅ ∅ [])
      (Pipeline.PNext [demo_lead] [])
    = Some (Pipeline.Shared ∅ ∅ ∅ [], s1)
    ∧ Pipeline.main_step fmt_text None (inject_Z 0) (Pipeline.Shared ∅ ∅ ∅ []) s1
      = Some s2
    ∧ Pipeline.main_step fmt_text None (inject_Z 0) s2.1 s2.2
      = Some (Pipeline.Shared demo_stores.1 demo_stores.2 ∅ [],
              Pipeline.PScored demo_lead demo_result [] []).
Proof.
  apply (PipelineProofs.score_steps fmt_text None (inject_Z 0)
           (Pipeline.Shared ∅ ∅ ∅ []) demo_lead [] [] demo_result demo_stores).
  reflexivity.
Defined.
